(** * Verification of vlight: fund fetching, aggregation and notification

    The development follows the Go program function by function.

    - Go [string]s are byte sequences: they are modelled by [string], whose
      characters are the 256 byte values.  Non-ASCII text of the source
      (the status marks, the table headers) is kept as its UTF-8 bytes.
    - Go [float64] is IEEE 754 binary64: it is modelled by [spec_float]
      with precision 53 and maximal exponent 1024, so that rounding in
      [+] and the behaviour of comparisons are the ones of the machine.
    - Go [error] values are modelled by [Err]; the [nil] error is [None].
    - The goroutines of [FetchFunds] are modelled by an executable
      small-step semantics: a schedule is a list of actions, each action
      lets one goroutine perform its next channel or wait-group operation. *)

From Stdlib Require Import ZArith String Ascii List Bool Lia Permutation.
From Stdlib Require Import PrimFloat SpecFloat FloatOps.
From stdpp Require Import base tactics option list strings pretty gmap.

Set Warnings "-inexact-float".
#[local] Open Scope string_scope.
#[local] Open Scope list_scope.

(** ** Byte strings *)

(** The double quote byte, written by its decimal code. *)
Definition dq : string := String "034"%char EmptyString.

(** The line feed byte, Go's ["\n"]. *)
Definition nl : string := String "010"%char EmptyString.

(** Go's [len(s)]: the number of bytes of [s]. *)
Definition len (s : string) : nat := String.length s.

(** Go's [s[:n]] for [n <= len(s)]: the first [n] bytes of [s]. *)
Fixpoint slice_to (n : nat) (s : string) : string :=
  match n, s with
  | S n', String c s' => String c (slice_to n' s')
  | _, _ => EmptyString
  end.

(** Go's [strings.Join(elems, sep)]. *)
Fixpoint Join (elems : list string) (sep : string) : string :=
  match elems with
  | [] => ""
  | [e] => e
  | e :: rest => e +:+ sep +:+ Join rest sep
  end.

(** A byte is a UTF-8 continuation byte when it has the form [10xxxxxx]. *)
Definition is_continuation (c : ascii) : bool :=
  let n := nat_of_ascii c in (128 <=? n)%nat && (n <? 192)%nat.

(** Number of characters (code points) of a UTF-8 encoded string: the
    bytes that start a code point are the ones that are not continuation
    bytes. *)
Fixpoint charCount (s : string) : nat :=
  match s with
  | EmptyString => 0
  | String c s' => (if is_continuation c then 0 else 1) + charCount s'
  end.

(** ** float64 *)

Module F64.
Definition float64 : Type := spec_float.
Definition prec : Z := 53.
Definition emax : Z := 1024.

(** Go's [x + y] on float64. *)
Definition add (x y : float64) : float64 := SFadd prec emax x y.
(** Go's [x / y] on float64. *)
Definition div (x y : float64) : float64 := SFdiv prec emax x y.
(** Go's [x < y], [x <= y], [x > y] and [x >= y] on float64. *)
Definition lt (x y : float64) : bool := SFltb x y.
Definition le (x y : float64) : bool := SFleb x y.
Definition gt (x y : float64) : bool := SFltb y x.
Definition ge (x y : float64) : bool := SFleb y x.

(** The constants [0] and [1] converted to float64. *)
Definition zero : float64 := S754_zero false.
Definition one : float64 := Eval vm_compute in Prim2SF 1%float.

(** The float64 nearest to a decimal literal, as the Go compiler
    computes it for a constant. *)
Definition lit (x : PrimFloat.float) : float64 := Prim2SF x.
End F64.
Export F64.

(** ** Errors *)

(** An error of [github.com/hanjm/errors]: [errors.Errorf(err, format, a...)]
    annotates the cause [err] with a formatted message, and makes a new
    error of the message when [err] is [nil].  [ErrLib] stands for an
    error made by a library (net/http, io, encoding/json). *)
Inductive Err : Type :=
| ErrLib (msg : string)
| ErrNew (msg : string)
| ErrAnnot (cause : Err) (msg : string).

Definition Errorf (err : option Err) (msg : string) : Err :=
  match err with
  | None => ErrNew msg
  | Some cause => ErrAnnot cause msg
  end.

(** ** Results of fallible functions *)

Inductive Result (A : Type) : Type :=
| Ok (a : A)
| Error (e : Err).
Arguments Ok {A} a.
Arguments Error {A} e.

(** ** The Fund record *)

Record Fund : Type := mkFund {
  FundCode : string;   (* json:"fundcode" *)
  Name : string;       (* json:"name" *)
  JzRq : string;       (* json:"jzrq" *)
  Dwjz : float64;      (* json:"dwjz,string" *)
  Gsz : float64;       (* json:"gsz,string" *)
  Gszzl : float64;     (* json:"gszzl,string" *)
  Gztime : string      (* json:"gztime" *)
}.

(** The zero value of [Fund]. *)
Definition zeroFund : Fund := mkFund "" "" "" zero zero zero "".

(** ** FetchFund *)

Definition bodyPrefix : string := "jsonpgz(".
Definition bodySuffix : string := ");".

(** Go's [s[n:]] for [n <= len(s)]. *)
Fixpoint slice_from (n : nat) (s : string) : string :=
  match n, s with
  | S n', String _ s' => slice_from n' s'
  | _, _ => s
  end.

Definition HasPrefix (s prefix : string) : bool :=
  (len prefix <=? len s)%nat && String.eqb (slice_to (len prefix) s) prefix.

Definition HasSuffix (s suffix : string) : bool :=
  (len suffix <=? len s)%nat &&
  String.eqb (slice_from (len s - len suffix) s) suffix.

(** [bytes.TrimPrefix] and [bytes.TrimSuffix]: the argument without the
    given prefix (suffix) when it has it, the argument itself otherwise. *)
Definition TrimPrefix (s prefix : string) : string :=
  if HasPrefix s prefix then slice_from (len prefix) s else s.

Definition TrimSuffix (s suffix : string) : string :=
  if HasSuffix s suffix then slice_to (len s - len suffix) s else s.

(** *** strconv.ParseFloat on decimal numerals

    The model reads an optional minus sign, decimal digits with an
    optional fraction and an optional decimal exponent, and converts the
    exact value to the nearest float64 (ties to even).  The other
    spellings that strconv reads (hexadecimal numerals, digits separated
    by underscores, a plus sign, infinities and NaN) are outside the
    model and are reported as errors: the model of FetchFund yields
    finite numbers only.  The statements on FetchFunds do not rest on
    this: there the result of a fetch is given by the schedule, and it
    can be any record. *)

Definition is_digit (c : ascii) : bool :=
  let n := nat_of_ascii c in (48 <=? n)%nat && (n <=? 57)%nat.

Definition digit_val (c : ascii) : Z := Z.of_nat (nat_of_ascii c) - 48.

(** Reads the leading digits of [s]: the number read after [acc], how
    many digits were read after [count], and the rest of [s]. *)
Fixpoint readDigits (s : string) (acc : Z) (count : nat) : Z * nat * string :=
  match s with
  | String c s' =>
      if is_digit c then readDigits s' (10 * acc + digit_val c)%Z (S count)
      else (acc, count, s)
  | EmptyString => (acc, count, s)
  end.

(** The float64 nearest to [(-1)^sign * m * 10^e10], for [0 <= m]. *)
Definition decimalToFloat (sign : bool) (m e10 : Z) : float64 :=
  match m with
  | Zpos p =>
      if (0 <=? e10)%Z then
        binary_normalize prec emax
          (if sign then - (m * 10 ^ e10) else m * 10 ^ e10)%Z 0 false
      else
        div (S754_finite sign p 0)
            (S754_finite false (Z.to_pos (10 ^ (- e10))) 0)
  | _ => S754_zero sign
  end.

Definition ParseFloat (s : string) : Result float64 :=
  let syntax := Error (ErrLib "strconv.ParseFloat: invalid syntax") in
  let '(sign, s1) :=
    match s with
    | String "-"%char s' => (true, s')
    | _ => (false, s)
    end in
  let '(ipart, ni, s2) := readDigits s1 0%Z 0%nat in
  let '(m, nf, s3) :=
    match s2 with
    | String "."%char s' => readDigits s' ipart 0%nat
    | _ => (ipart, 0%nat, s2)
    end in
  if (ni + nf =? 0)%nat then syntax
  else
    let exponent : option Z :=
      match s3 with
      | EmptyString => Some 0%Z
      | String c s' =>
          if Ascii.eqb c "e" || Ascii.eqb c "E" then
            let '(esign, s4) :=
              match s' with
              | String "-"%char s'' => (true, s'')
              | String "+"%char s'' => (false, s'')
              | _ => (false, s')
              end in
            match readDigits s4 0%Z 0%nat with
            | (e, S _, EmptyString) => Some (if esign then - e else e)%Z
            | _ => None
            end
          else None
      end in
    match exponent with
    | None => syntax
    | Some e =>
        match decimalToFloat sign m (e - Z.of_nat nf) with
        | S754_infinity _ =>
            Error (ErrLib "strconv.ParseFloat: value out of range")
        | x => Ok x
        end
    end.

(** *** encoding/json on the upstream format

    The model covers JSON texts that are one object whose member values
    are strings, the format of the upstream service, with white space
    and the single-character escapes.  Other texts that the decoder
    accepts (the text [null], members that are not strings, [\u]
    escapes, bytes that are not UTF-8, which the decoder replaces) are
    outside the model: they are reported as errors or kept as they
    are. *)

Definition is_space (c : ascii) : bool :=
  let n := nat_of_ascii c in
  (n =? 32)%nat || (n =? 9)%nat || (n =? 13)%nat || (n =? 10)%nat.

(** The byte denoted by the escape [\c] inside a JSON string. *)
Definition unescape (c : ascii) : option ascii :=
  let n := nat_of_ascii c in
  if (n =? 34)%nat || (n =? 92)%nat || (n =? 47)%nat then Some c
  else if Ascii.eqb c "b" then Some "008"%char
  else if Ascii.eqb c "f" then Some "012"%char
  else if Ascii.eqb c "n" then Some "010"%char
  else if Ascii.eqb c "r" then Some "013"%char
  else if Ascii.eqb c "t" then Some "009"%char
  else None.

Definition snoc (s : string) (c : ascii) : string := s +:+ String c EmptyString.

(** The positions of the scanner in an object. *)
Inductive ScanState : Type :=
| ScanBegin                            (* before the opening brace *)
| ScanFirstKey                         (* after the opening brace *)
| ScanKey                              (* after a comma *)
| ScanInKey (k : string)               (* inside a member name *)
| ScanInKeyEsc (k : string)            (* after a backslash in a name *)
| ScanColon (k : string)               (* after a member name *)
| ScanValue (k : string)               (* after the colon *)
| ScanInValue (k v : string)           (* inside a member value *)
| ScanInValueEsc (k v : string)        (* after a backslash in a value *)
| ScanAfterValue                       (* after a member value *)
| ScanEnd.                             (* after the closing brace *)

Definition is_quote (c : ascii) : bool := (nat_of_ascii c =? 34)%nat.
Definition is_backslash (c : ascii) : bool := (nat_of_ascii c =? 92)%nat.
Definition is_control (c : ascii) : bool := (nat_of_ascii c <? 32)%nat.

(** One step of the scanner on the byte [c]; [members] are the members
    read so far, in the order of the text. *)
Definition scanStep (st : ScanState) (members : list (string * string))
    (c : ascii) : option (ScanState * list (string * string)) :=
  match st with
  | ScanBegin =>
      if is_space c then Some (ScanBegin, members)
      else if Ascii.eqb c "{" then Some (ScanFirstKey, members)
      else None
  | ScanFirstKey =>
      if is_space c then Some (ScanFirstKey, members)
      else if is_quote c then Some (ScanInKey "", members)
      else if Ascii.eqb c "}" then Some (ScanEnd, members)
      else None
  | ScanKey =>
      if is_space c then Some (ScanKey, members)
      else if is_quote c then Some (ScanInKey "", members)
      else None
  | ScanInKey k =>
      if is_quote c then Some (ScanColon k, members)
      else if is_backslash c then Some (ScanInKeyEsc k, members)
      else if is_control c then None
      else Some (ScanInKey (snoc k c), members)
  | ScanInKeyEsc k =>
      match unescape c with
      | Some c' => Some (ScanInKey (snoc k c'), members)
      | None => None
      end
  | ScanColon k =>
      if is_space c then Some (ScanColon k, members)
      else if Ascii.eqb c ":" then Some (ScanValue k, members)
      else None
  | ScanValue k =>
      if is_space c then Some (ScanValue k, members)
      else if is_quote c then Some (ScanInValue k "", members)
      else None
  | ScanInValue k v =>
      if is_quote c then Some (ScanAfterValue, members ++ [(k, v)])
      else if is_backslash c then Some (ScanInValueEsc k v, members)
      else if is_control c then None
      else Some (ScanInValue k (snoc v c), members)
  | ScanInValueEsc k v =>
      match unescape c with
      | Some c' => Some (ScanInValue k (snoc v c'), members)
      | None => None
      end
  | ScanAfterValue =>
      if is_space c then Some (ScanAfterValue, members)
      else if Ascii.eqb c "," then Some (ScanKey, members)
      else if Ascii.eqb c "}" then Some (ScanEnd, members)
      else None
  | ScanEnd =>
      if is_space c then Some (ScanEnd, members) else None
  end.

Fixpoint scan (data : string) (st : ScanState)
    (members : list (string * string)) : Result (list (string * string)) :=
  match data with
  | EmptyString =>
      match st with
      | ScanEnd => Ok members
      | _ => Error (ErrLib "unexpected end of JSON input")
      end
  | String c data' =>
      match scanStep st members c with
      | Some (st', members') => scan data' st' members'
      | None => Error (ErrLib "invalid character")
      end
  end.

(** ASCII lower case, for the case-insensitive match of member names. *)
Definition lower (c : ascii) : ascii :=
  let n := nat_of_ascii c in
  if (65 <=? n)%nat && (n <=? 90)%nat then ascii_of_nat (n + 32) else c.

Fixpoint lowerString (s : string) : string :=
  match s with
  | EmptyString => EmptyString
  | String c s' => String (lower c) (lowerString s')
  end.

(** A member name selects the field with that json tag, compared
    without regard to case. *)
Definition matchesTag (key tag : string) : bool :=
  String.eqb key tag || String.eqb (lowerString key) (lowerString tag).

(** A field tagged [,string]: the JSON string holds the text of a
    number, or [null], which leaves the field as it is. *)
Definition quotedFloat (v : string) (old : float64) : Result float64 :=
  let invalid :=
    Error (ErrLib "json: invalid use of ,string struct tag") in
  if String.eqb v "null" then Ok old
  else
    match v with
    | String c _ =>
        if Ascii.eqb c "-" || is_digit c then
          match ParseFloat v with
          | Ok x => Ok x
          | Error _ => Error (ErrLib "json: cannot unmarshal number")
          end
        else invalid
    | EmptyString => invalid
    end.

(** Stores one member into the record.  The decoder keeps the first
    error and goes on. *)
Definition storeMember (acc : Fund * option Err) (member : string * string)
    : Fund * option Err :=
  let '(f, saved) := acc in
  let '(key, v) := member in
  let save (e : Err) := match saved with Some _ => saved | None => Some e end in
  let float (old : float64) (set : float64 -> Fund) : Fund * option Err :=
    match quotedFloat v old with
    | Ok x => (set x, saved)
    | Error e => (f, save e)
    end in
  if matchesTag key "fundcode" then
    (mkFund v (Name f) (JzRq f) (Dwjz f) (Gsz f) (Gszzl f) (Gztime f), saved)
  else if matchesTag key "name" then
    (mkFund (FundCode f) v (JzRq f) (Dwjz f) (Gsz f) (Gszzl f) (Gztime f), saved)
  else if matchesTag key "jzrq" then
    (mkFund (FundCode f) (Name f) v (Dwjz f) (Gsz f) (Gszzl f) (Gztime f), saved)
  else if matchesTag key "dwjz" then
    float (Dwjz f) (fun x =>
      mkFund (FundCode f) (Name f) (JzRq f) x (Gsz f) (Gszzl f) (Gztime f))
  else if matchesTag key "gsz" then
    float (Gsz f) (fun x =>
      mkFund (FundCode f) (Name f) (JzRq f) (Dwjz f) x (Gszzl f) (Gztime f))
  else if matchesTag key "gszzl" then
    float (Gszzl f) (fun x =>
      mkFund (FundCode f) (Name f) (JzRq f) (Dwjz f) (Gsz f) x (Gztime f))
  else if matchesTag key "gztime" then
    (mkFund (FundCode f) (Name f) (JzRq f) (Dwjz f) (Gsz f) (Gszzl f) v, saved)
  else (f, saved).

(** [json.Unmarshal(body, &fund)] for a zero [fund]. *)
Definition Unmarshal (body : string) : Result Fund :=
  match scan body ScanBegin [] with
  | Error e => Error e
  | Ok members =>
      match fold_left storeMember members (zeroFund, None) with
      | (fund, None) => Ok fund
      | (_, Some e) => Error e
      end
  end.

(** What the network does with the request of [FetchFund]. *)
Inductive HttpOutcome : Type :=
| NewRequestError (e : Err)      (* http.NewRequestWithContext fails *)
| DoError (e : Err)              (* httpClient.Do fails *)
| ReadError (e : Err)            (* ioutil.ReadAll fails *)
| ResponseBody (body : string).  (* the body was read *)

Definition FetchFund (code : string) (net : HttpOutcome) : Result Fund :=
  let reqURL := "http://fundgz.1234567.com.cn/js/" +:+ code +:+ ".js" in
  match net with
  | NewRequestError e => Error (Errorf (Some e) ("new request, url:" +:+ reqURL))
  | DoError e => Error (Errorf (Some e) ("do request, url:" +:+ reqURL))
  | ReadError e => Error (Errorf (Some e) "read body")
  | ResponseBody body =>
      let body := TrimPrefix body bodyPrefix in
      let body := TrimSuffix body bodySuffix in
      match Unmarshal body with
      | Error e => Error (Errorf (Some e) ("unmarshal, body:" +:+ body))
      | Ok fund => Ok fund
      end
  end.

(** The response body of the example in the comment of [Fund], with
    the name [X]. *)
Definition jsonMember (key value : string) : string :=
  dq +:+ key +:+ dq +:+ ":" +:+ dq +:+ value +:+ dq.

Definition cannedBody : string :=
  "jsonpgz({" +:+
  jsonMember "fundcode" "180012" +:+ "," +:+
  jsonMember "name" "X" +:+ "," +:+
  jsonMember "jzrq" "2019-10-31" +:+ "," +:+
  jsonMember "dwjz" "3.6009" +:+ "," +:+
  jsonMember "gsz" "3.6490" +:+ "," +:+
  jsonMember "gszzl" "1.34" +:+ "," +:+
  jsonMember "gztime" "2019-11-01 15:00" +:+
  "});".

(** ** Notification formatters *)

(** The raw string literals of [GenerateEmailHTML]. *)
Definition email_row_open : string :=
  "
            <tr>
              <td width=" +:+ dq +:+ "50" +:+ dq +:+ " align=" +:+ dq +:+ "center" +:+ dq +:+ ">".

Definition email_cell_sep : string :=
  "</td>
              <td width=" +:+ dq +:+ "50" +:+ dq +:+ " align=" +:+ dq +:+ "center" +:+ dq +:+ ">".

Definition email_cell_sep_percent : string :=
  "%</td>
              <td width=" +:+ dq +:+ "50" +:+ dq +:+ " align=" +:+ dq +:+ "center" +:+ dq +:+ ">".

Definition email_row_close : string :=
  "</td>
            </tr>
			".

Definition email_html_open : string :=
  "
			</html>
				<head>
					<meta http-equiv=" +:+ dq +:+ "Content-Type" +:+ dq +:+ " content=" +:+ dq +:+ "text/html; charset=utf-8" +:+ dq +:+ " />
				</head>
            <body>
				<div id=" +:+ dq +:+ "container" +:+ dq +:+ ">
					<p>基金涨跌监控:</p>
					<div id=" +:+ dq +:+ "content" +:+ dq +:+ ">
						<table width=" +:+ dq +:+ "30%" +:+ dq +:+ " border=" +:+ dq +:+ "1" +:+ dq +:+ " cellspacing=" +:+ dq +:+ "0" +:+ dq +:+ " cellpadding=" +:+ dq +:+ "0" +:+ dq +:+ ">
							<tr>
							  <td width=" +:+ dq +:+ "50" +:+ dq +:+ " align=" +:+ dq +:+ "center" +:+ dq +:+ ">状态</td>
							  <td width=" +:+ dq +:+ "100" +:+ dq +:+ " align=" +:+ dq +:+ "center" +:+ dq +:+ ">基金名称</td>
							  <td width=" +:+ dq +:+ "50" +:+ dq +:+ " align=" +:+ dq +:+ "center" +:+ dq +:+ ">估算涨幅</td>
							  <td width=" +:+ dq +:+ "50" +:+ dq +:+ " align=" +:+ dq +:+ "center" +:+ dq +:+ ">当前估算净值</td>
							  <td width=" +:+ dq +:+ "50" +:+ dq +:+ " align=" +:+ dq +:+ "center" +:+ dq +:+ ">昨日单位净值</td>
							  <td width=" +:+ dq +:+ "50" +:+ dq +:+ " align=" +:+ dq +:+ "center" +:+ dq +:+ ">估算时间</td>
							</tr>".

Definition email_html_close : string :=
  "
						</table>
					</div>
            	</div>
            </div>
            </body>
        </html>".

(** The raw string literal that starts the body of
    [GenerateServerChanMessage]. *)
Definition serverChan_body_open : string :=
  "
|状态|基金名称|估算涨幅|当前估算净值|昨日单位净值|估算时间|
| -- | -- | -- | -- | -- | -- |
".

Section Formatters.

(** [strconv.FormatFloat(x, 'f', -1, 64)], the shortest decimal text
    that reads back as [x]. *)
Variable FormatFloat : float64 -> string.

(** [time.Now().In(timeLocationCST).Format("2006-01-02")]. *)
Variable today : string.

(** The classification of one record in the loop of
    [GenerateEmailHTML]. *)
Definition GenerateEmailHTML_status
    (fund : Fund) (minRiseNum maxFallNum : float64) : string :=
  if gt (Gszzl fund) zero && ge (Gszzl fund) minRiseNum then "涨"
  else if lt (Gszzl fund) zero && le (Gszzl fund) maxFallNum then "跌"
  else "-".

Definition GenerateEmailHTML_element
    (fund : Fund) (minRiseNum maxFallNum : float64) : string :=
  let status := GenerateEmailHTML_status fund minRiseNum maxFallNum in
  email_row_open +:+ status +:+
  email_cell_sep +:+ Name fund +:+
  email_cell_sep +:+ FormatFloat (Gszzl fund) +:+
  email_cell_sep_percent +:+ FormatFloat (Gsz fund) +:+
  email_cell_sep +:+ FormatFloat (Dwjz fund) +:+
  email_cell_sep +:+ Gztime fund +:+
  email_row_close.

(** The [for] loop of [GenerateEmailHTML]: one element is appended per
    record. *)
Definition GenerateEmailHTML_loop
    (funds : list Fund) (minRiseNum maxFallNum : float64) : list string :=
  fold_left
    (fun elements fund =>
       elements ++ [GenerateEmailHTML_element fund minRiseNum maxFallNum])
    funds [].

Definition GenerateEmailHTML
    (funds : list Fund) (minRiseNum maxFallNum : float64) : string * bool :=
  let elements := GenerateEmailHTML_loop funds minRiseNum maxFallNum in
  if (0 <? length elements)%nat then
    let content := Join elements nl in
    (email_html_open +:+ content +:+ email_html_close, true)
  else ("", false).

(** The classification of one record in the loop of
    [GenerateServerChanMessage], together with the updated count of
    falling funds. *)
Definition GenerateServerChanMessage_status
    (fund : Fund) (minRiseNum maxFallNum : float64) (fallCount : nat)
    : string * nat :=
  if gt (Gszzl fund) zero && ge (Gszzl fund) minRiseNum then
    ("涨", fallCount)
  else if lt (Gszzl fund) zero && le (Gszzl fund) maxFallNum then
    ("跌", S fallCount)
  else ("-", fallCount).

Definition GenerateServerChanMessage_element
    (fund : Fund) (status : string) : string :=
  "|" +:+ status +:+
  "|" +:+ Name fund +:+
  "|" +:+ FormatFloat (Gszzl fund) +:+
  "|" +:+ FormatFloat (Gsz fund) +:+
  "|" +:+ FormatFloat (Dwjz fund) +:+
  "|" +:+ Gztime fund +:+
  "|".

(** The [for] loop of [GenerateServerChanMessage]; the state is the
    pair of [elements] and [fallCount]. *)
Definition GenerateServerChanMessage_loop
    (funds : list Fund) (minRiseNum maxFallNum : float64)
    : list string * nat :=
  fold_left
    (fun '(elements, fallCount) fund =>
       let '(status, fallCount') :=
         GenerateServerChanMessage_status fund minRiseNum maxFallNum fallCount in
       (elements ++ [GenerateServerChanMessage_element fund status],
        fallCount'))
    funds ([], 0%nat).

(** The result is [(title, body, shouldSend)]. *)
Definition GenerateServerChanMessage
    (funds : list Fund) (minRiseNum maxFallNum : float64)
    : string * string * bool :=
  let '(elements, fallCount) :=
    GenerateServerChanMessage_loop funds minRiseNum maxFallNum in
  if (0 <? length elements)%nat then
    let title :=
      "基金涨跌监控_" +:+ today +:+ "_" +:+ pretty fallCount +:+ "跌" in
    let content := Join elements nl in
    (title, serverChan_body_open +:+ content, true)
  else ("", "", false).

End Formatters.

(** ** The webhook channel *)

(** What [SendServerChan] hands to the HTTP client: the request URL and
    the two form fields set on [url.Values]. *)
Record ServerChanRequest : Type := mkServerChanRequest {
  reqURL : string;
  text : string;
  desp : string
}.

(** The part of [SendServerChan] that runs before the request is sent:
    the two guards, the truncation of the title and the form. *)
Definition SendServerChan_request
    (title body serverChanKey : string) : Result ServerChanRequest :=
  if String.eqb title "" then Error (Errorf None "empty title")
  else if String.eqb serverChanKey "" then Error (Errorf None "empty serverChanKey")
  else
    let title := if (256 <? len title)%nat then slice_to 256 title else title in
    Ok {| reqURL := "https://sc.ftqq.com/" +:+ serverChanKey +:+ ".send";
           text := title;
           desp := body |}.

(** The answer of the network to the request of [SendServerChan]. *)
Inductive ServerChanReply : Type :=
| ReplyNewRequestError (e : Err)
| ReplyDoError (e : Err)
| ReplyStatus (code : Z).

Definition SendServerChan
    (network : ServerChanRequest -> ServerChanReply)
    (title body serverChanKey : string) : option Err :=
  match SendServerChan_request title body serverChanKey with
  | Error e => Some e
  | Ok req =>
      match network req with
      | ReplyNewRequestError e => Some (Errorf (Some e) "http newRequest")
      | ReplyDoError e => Some (Errorf (Some e) "http get")
      | ReplyStatus code =>
          if (code =? 200)%Z then None
          else Some (Errorf None ("server return " +:+ pretty code))
      end
  end.

(** A title of [n] copies of the three-byte character of the "fall"
    mark. *)
Fixpoint fallMarks (n : nat) : string :=
  match n with
  | O => ""
  | S n' => "跌" +:+ fallMarks n'
  end.

(** ** sort.Slice *)

Section Sort.
Context {A : Type}.
Variable less : A -> A -> bool.

(** The inner loop of the insertion sort of package sort,
    [for j := i; j > a && less(j, j-1); j-- { swap(j, j-1) }]: the
    element [x] at index [i] moves to the left while it is less than
    its left neighbour.  [sorted_rev] holds the elements at the left
    of [x] from right to left, and so does the result. *)
Fixpoint insertLeft (x : A) (sorted_rev : list A) : list A :=
  match sorted_rev with
  | [] => [x]
  | y :: rest =>
      if less x y then y :: insertLeft x rest else x :: sorted_rev
  end.

(** The outer loop, [for i := a + 1; i < b; i++]. *)
Definition insertionSort (l : list A) : list A :=
  rev (fold_left (fun sorted_rev x => insertLeft x sorted_rev) l []).

(** [sort.Slice(x, less)].  On a slice of at most 12 elements package
    sort ends with the insertion sort above, and since Go 1.19 it runs
    nothing else there.  On longer slices it runs a quicksort, whose
    result can differ from the one of the insertion sort in the order of
    the elements that [less] does not separate.  The model is the
    insertion sort: it is the function of the package up to 12
    elements, and the statements on longer slices use of it only that
    the result is a permutation of the slice. *)
Definition sortSlice (l : list A) : list A := insertionSort l.
End Sort.

(** ** FetchFunds *)

(** The [less] function handed to [sort.Slice]:
    [funds[i].Gszzl+1 < funds[j].Gszzl+1]. *)
Definition lessFund (a b : Fund) : bool :=
  lt (add (Gszzl a) one) (add (Gszzl b) one).

Definition concurrency : nat := 3.

(** What one worker goroutine has made of its identifier. *)
Inductive Outcome : Type :=
| Skipped                 (* the identifier is empty *)
| Fetched (fund : Fund)   (* the record was sent on foundCh *)
| Failed (err : Err).     (* the error was offered to errCh *)

(** The program points of a worker goroutine, [go func() { ... }()] in
    the loop over [codes]. *)
Inductive WorkerPC : Type :=
| WStart                  (* at [if code == ""] *)
| WFetching               (* inside [FetchFund(ctx, code)] *)
| WPublish (err : Err)    (* at [select { case errCh <- err: default: }] *)
| WSend (fund : Fund)     (* at [foundCh <- fund] *)
| WDone (o : Outcome)     (* deferred, at [wg.Done()] *)
| WRelease (o : Outcome)  (* deferred, at [<-limiter] *)
| WExit (o : Outcome).    (* finished *)

(** A worker holds its own copy of the identifier ([code := code]). *)
Record Worker : Type := mkWorker {
  wcode : string;
  wpc : WorkerPC
}.

(** The goroutine that ranges over [codes]: about to send on [limiter]
    for the first of the remaining identifiers, or about to start the
    worker of [code]. *)
Inductive DispatcherPC : Type :=
| DAcquire (rest : list string)
| DSpawn (code : string) (rest : list string).

(** The goroutine that waits for the group and closes the channels. *)
Inductive CloserPC : Type :=
| CWait           (* at [wg.Wait()] *)
| CCloseFound     (* at [close(foundCh)] *)
| CCloseErr       (* at [close(errCh)] *)
| CExit.

(** The calling goroutine, from the [range] loop on. *)
Inductive MainPC : Type :=
| MRange          (* at [for fund := range foundCh] *)
| MSort           (* at [sort.Slice] *)
| MRecvErr        (* at [return funds, <-errCh] *)
| MReturned (funds : list Fund) (err : option Err).

(** The history of a run records, in the order they happen, the calls
    of [FetchFund] and the attempts to send on [errCh].  It is not part
    of the program: no step reads it. *)
Inductive Event : Type :=
| EvRequest (i : nat) (code : string)
| EvPublish (i : nat) (err : Err) (stored : bool).

Record State : Type := mkState {
  dispatcher : DispatcherPC;
  workers : list Worker;        (* worker [i] runs the [i]-th identifier *)
  limiter : nat;                (* number of values buffered in limiter *)
  wg : nat;                     (* counter of the wait group *)
  foundCh_closed : bool;
  errCh : option Err;           (* the buffer of errCh, of capacity 1 *)
  errCh_closed : bool;
  closer : CloserPC;
  main : MainPC;
  funds : list Fund;            (* the result variable [funds] *)
  history : list Event
}.

(** The state after [wg.Add(len(codes))] and the two [go] statements. *)
Definition init (codes : list string) : State :=
  {| dispatcher := DAcquire codes;
     workers := [];
     limiter := 0;
     wg := length codes;
     foundCh_closed := false;
     errCh := None;
     errCh_closed := false;
     closer := CWait;
     main := MRange;
     funds := [];
     history := [] |}.

Definition set_dispatcher (d : DispatcherPC) (s : State) : State :=
  mkState d (workers s) (limiter s) (wg s) (foundCh_closed s) (errCh s)
    (errCh_closed s) (closer s) (main s) (funds s) (history s).
Definition set_workers (ws : list Worker) (s : State) : State :=
  mkState (dispatcher s) ws (limiter s) (wg s) (foundCh_closed s) (errCh s)
    (errCh_closed s) (closer s) (main s) (funds s) (history s).
Definition set_limiter (n : nat) (s : State) : State :=
  mkState (dispatcher s) (workers s) n (wg s) (foundCh_closed s) (errCh s)
    (errCh_closed s) (closer s) (main s) (funds s) (history s).
Definition set_wg (n : nat) (s : State) : State :=
  mkState (dispatcher s) (workers s) (limiter s) n (foundCh_closed s) (errCh s)
    (errCh_closed s) (closer s) (main s) (funds s) (history s).
Definition set_foundCh_closed (b : bool) (s : State) : State :=
  mkState (dispatcher s) (workers s) (limiter s) (wg s) b (errCh s)
    (errCh_closed s) (closer s) (main s) (funds s) (history s).
Definition set_errCh (e : option Err) (s : State) : State :=
  mkState (dispatcher s) (workers s) (limiter s) (wg s) (foundCh_closed s) e
    (errCh_closed s) (closer s) (main s) (funds s) (history s).
Definition set_errCh_closed (b : bool) (s : State) : State :=
  mkState (dispatcher s) (workers s) (limiter s) (wg s) (foundCh_closed s)
    (errCh s) b (closer s) (main s) (funds s) (history s).
Definition set_closer (c : CloserPC) (s : State) : State :=
  mkState (dispatcher s) (workers s) (limiter s) (wg s) (foundCh_closed s)
    (errCh s) (errCh_closed s) c (main s) (funds s) (history s).
Definition set_main (m : MainPC) (s : State) : State :=
  mkState (dispatcher s) (workers s) (limiter s) (wg s) (foundCh_closed s)
    (errCh s) (errCh_closed s) (closer s) m (funds s) (history s).
Definition set_funds (fs : list Fund) (s : State) : State :=
  mkState (dispatcher s) (workers s) (limiter s) (wg s) (foundCh_closed s)
    (errCh s) (errCh_closed s) (closer s) (main s) fs (history s).
Definition record (ev : Event) (s : State) : State :=
  mkState (dispatcher s) (workers s) (limiter s) (wg s) (foundCh_closed s)
    (errCh s) (errCh_closed s) (closer s) (main s) (funds s)
    (history s ++ [ev]).

(** Worker [i] moves to the program point [pc]. *)
Definition set_pc (i : nat) (w : Worker) (pc : WorkerPC) (s : State) : State :=
  set_workers (<[i := mkWorker (wcode w) pc]> (workers s)) s.

(** A schedule is a list of actions; an action names the goroutine that
    performs its next operation.  The return of a call of [FetchFund] is
    an action of its own, which carries the result of the call: the
    result depends on the network, and every result is possible. *)
Inductive Action : Type :=
| ActDispatcher
| ActWorker (i : nat)
| ActFetchReturn (i : nat) (r : Result Fund)
| ActCloser
| ActMain.

(** One operation of the dispatcher goroutine. *)
Definition stepDispatcher (s : State) : option State :=
  match dispatcher s with
  | DAcquire [] => None                       (* the loop is over *)
  | DAcquire (code :: rest) =>
      (* limiter <- struct{}{} blocks while the buffer is full *)
      if (limiter s <? concurrency)%nat then
        Some (set_dispatcher (DSpawn code rest) (set_limiter (S (limiter s)) s))
      else None
  | DSpawn code rest =>
      Some (set_dispatcher (DAcquire rest)
              (set_workers (workers s ++ [mkWorker code WStart]) s))
  end.

(** One operation of worker [i], other than the return of FetchFund.
    [None] is a blocked operation or a panic (send on a closed channel,
    negative counter of the wait group). *)
Definition stepWorker (i : nat) (s : State) : option State :=
  match workers s !! i with
  | None => None
  | Some w =>
      match wpc w with
      | WStart =>
          if String.eqb (wcode w) "" then Some (set_pc i w (WDone Skipped) s)
          else Some (record (EvRequest i (wcode w)) (set_pc i w WFetching s))
      | WFetching => None
      | WPublish err =>
          if errCh_closed s then None
          else
            match errCh s with
            | None =>
                Some (record (EvPublish i err true)
                        (set_errCh (Some err) (set_pc i w (WDone (Failed err)) s)))
            | Some _ =>
                Some (record (EvPublish i err false)
                        (set_pc i w (WDone (Failed err)) s))
            end
      | WSend fund =>
          (* foundCh is not buffered: the send completes together with
             the receive of the range loop *)
          if foundCh_closed s then None
          else
            match main s with
            | MRange =>
                Some (set_funds (funds s ++ [fund])
                        (set_pc i w (WDone (Fetched fund)) s))
            | _ => None
            end
      | WDone o =>
          match wg s with
          | O => None
          | S n => Some (set_wg n (set_pc i w (WRelease o) s))
          end
      | WRelease o =>
          match limiter s with
          | O => None
          | S n => Some (set_limiter n (set_pc i w (WExit o) s))
          end
      | WExit _ => None
      end
  end.

(** The call of [FetchFund] by worker [i] returns [r]. *)
Definition stepFetchReturn (i : nat) (r : Result Fund) (s : State)
    : option State :=
  match workers s !! i with
  | None => None
  | Some w =>
      match wpc w with
      | WFetching =>
          match r with
          | Ok fund => Some (set_pc i w (WSend fund) s)
          | Error err =>
              Some (set_pc i w
                      (WPublish (Errorf (Some err) ("code:" +:+ wcode w))) s)
          end
      | _ => None
      end
  end.

Definition stepCloser (s : State) : option State :=
  match closer s with
  | CWait =>
      match wg s with
      | O => Some (set_closer CCloseFound s)
      | S _ => None
      end
  | CCloseFound =>
      if foundCh_closed s then None
      else Some (set_closer CCloseErr (set_foundCh_closed true s))
  | CCloseErr =>
      if errCh_closed s then None
      else Some (set_closer CExit (set_errCh_closed true s))
  | CExit => None
  end.

(** One operation of the calling goroutine.  The receive of the range
    loop from a worker is the step of that worker; here the loop ends
    when the channel is closed. *)
Definition stepMain (s : State) : option State :=
  match main s with
  | MRange =>
      if foundCh_closed s then Some (set_main MSort s) else None
  | MSort =>
      Some (set_main MRecvErr (set_funds (sortSlice lessFund (funds s)) s))
  | MRecvErr =>
      match errCh s with
      | Some err =>
          Some (set_main (MReturned (funds s) (Some err)) (set_errCh None s))
      | None =>
          if errCh_closed s then Some (set_main (MReturned (funds s) None) s)
          else None
      end
  | MReturned _ _ => None
  end.

Definition step (s : State) (a : Action) : option State :=
  match a with
  | ActDispatcher => stepDispatcher s
  | ActWorker i => stepWorker i s
  | ActFetchReturn i r => stepFetchReturn i r s
  | ActCloser => stepCloser s
  | ActMain => stepMain s
  end.

(** The state reached by a schedule, when each of its actions can be
    performed. *)
Fixpoint run (s : State) (schedule : list Action) : option State :=
  match schedule with
  | [] => Some s
  | a :: rest =>
      match step s a with
      | Some s' => run s' rest
      | None => None
      end
  end.

(** Observations on a state. *)

Definition is_fetching (w : Worker) : bool :=
  match wpc w with WFetching => true | _ => false end.

(** The number of calls of [FetchFund] in flight. *)
Definition inflight (s : State) : nat :=
  sum_list_with (fun w => if is_fetching w then 1 else 0) (workers s).

Definition outcome (w : Worker) : option Outcome :=
  match wpc w with
  | WDone o | WRelease o | WExit o => Some o
  | _ => None
  end.

(** The records fetched with success and the tagged errors of the
    failed fetches, by the workers that have got that far. *)
Definition fetched (w : Worker) : option Fund :=
  match outcome w with Some (Fetched fund) => Some fund | _ => None end.

Definition failed (w : Worker) : option Err :=
  match outcome w with Some (Failed err) => Some err | _ => None end.

Definition successes (s : State) : list Fund := omap fetched (workers s).
Definition failures (s : State) : list Err := omap failed (workers s).

(** The errors offered to errCh, in the order of the attempts, and the
    ones that were stored in its buffer. *)
Definition published (h : list Event) : list Err :=
  omap (fun ev => match ev with EvPublish _ err _ => Some err | _ => None end) h.

Definition stored (h : list Event) : list Err :=
  omap (fun ev => match ev with EvPublish _ err true => Some err | _ => None end) h.

(** The identifiers for which a request was made. *)
Definition requested (h : list Event) : list string :=
  omap (fun ev => match ev with EvRequest _ code => Some code | _ => None end) h.

(** What [FetchFunds] has returned, once it has. *)
Definition returned (s : State) : option (list Fund * option Err) :=
  match main s with
  | MReturned fs err => Some (fs, err)
  | _ => None
  end.

(** ** The email channel *)

(** What [SendEmail] hands to gomail: the headers and the body of the
    message, and the arguments of [gomail.NewDialer]. *)
Record Mail : Type := mkMail {
  mailFrom : string;
  mailTo : string;
  mailSubject : string;
  mailContentType : string;
  mailBody : string;
  dialHost : string;
  dialPort : Z;
  dialUsername : string;
  dialPassword : string
}.

(** The part of [SendEmail] that runs before [d.DialAndSend(m)]; [None]
    is the early return on an empty content.  [now] is
    [time.Now().In(timeLocationCST).Format(time.RFC3339)]. *)
Definition SendEmail_mail
    (now content smtpHost emailName emailPassword emailTo : string)
    : option Mail :=
  if String.eqb content "" then None
  else
    Some {| mailFrom := emailName;
            mailTo := emailTo;
            mailSubject := "基金涨跌监控-" +:+ now;
            mailContentType := "text/html";
            mailBody := content;
            dialHost := smtpHost;
            dialPort := 587;
            dialUsername := emailName;
            dialPassword := emailPassword |}.

(** [smtp] is the result of [d.DialAndSend(m)]. *)
Definition SendEmail
    (smtp : Mail -> option Err)
    (now content smtpHost emailName emailPassword emailTo : string)
    : option Err :=
  match SendEmail_mail now content smtpHost emailName emailPassword emailTo with
  | None => None
  | Some m =>
      match smtp m with
      | Some e => Some (Errorf (Some e) ("content:" +:+ content))
      | None => None
      end
  end.

(** ** main: the configuration and the two notification tasks *)

(** The variables that [main] reads from the environment for the two
    channels. *)
Record Config : Type := mkConfig {
  smtpHost : string;
  emailName : string;
  emailPassword : string;
  emailTo : string;
  serverChanKey : string
}.

(** [emailTo] falls back on [emailName]. *)
Definition readConfig (getenv : string -> string) : Config :=
  let emailName := getenv "EMAIL_NAME" in
  let emailTo := getenv "EMAIL_TO" in
  {| smtpHost := getenv "SMTP_HOST";
     emailName := emailName;
     emailPassword := getenv "EMAIL_PASSWORD";
     emailTo := if String.eqb emailTo "" then emailName else emailTo;
     serverChanKey := getenv "SCKEY" |}.

(** [const minRiseNum, maxFallNum = 1, -0.8], as float64 arguments. *)
Definition minRiseNum : float64 := lit 1.
Definition maxFallNum : float64 := lit (-0.8).

(** The program points of a function handed to [errGroup.Go]. *)
Inductive TaskPC : Type :=
| TaskStart                    (* at its first statement *)
| TaskAssigned                 (* after [err = Send...(...)], at [if err != nil] *)
| TaskFailed                   (* inside the [if], at [return err] *)
| TaskReturned (r : option Err).

Inductive Task : Type := EmailTask | ServerChanTask.

(** The state of [main] after the two calls of [errGroup.Go]: the
    variable [err] of [main], which both functions assign and read, the
    two functions, and the first error that the group has got. *)
Record NotifyState : Type := mkNotifyState {
  mainErr : option Err;
  emailTask : TaskPC;
  serverChanTask : TaskPC;
  groupErr : option Err
}.

(** [main] gets here when [FetchFunds] has returned a nil error, which
    is the value of [err]. *)
Definition notifyInit : NotifyState :=
  {| mainErr := None;
     emailTask := TaskStart;
     serverChanTask := TaskStart;
     groupErr := None |}.

Section Notify.

Variable FormatFloat : float64 -> string.
Variable today : string.
Variable now : string.
Variable smtp : Mail -> option Err.
Variable network : ServerChanRequest -> ServerChanReply.
Variable cfg : Config.
Variable fundResult : list Fund.

(** The first function: [None] when it returns before sending, the
    result of [SendEmail] otherwise.  The results of the sends are the
    ones of [smtp] and [network]; a request that fails because the
    group has cancelled the context is one of the failures that
    [network] can report. *)
Definition emailAttempt : option (option Err) :=
  let '(content, shouldSend) :=
    GenerateEmailHTML FormatFloat fundResult minRiseNum maxFallNum in
  let shouldSend :=
    if String.eqb (smtpHost cfg) "" || String.eqb (emailName cfg) "" ||
       String.eqb (emailPassword cfg) "" || String.eqb (emailTo cfg) ""
    then false else shouldSend in
  if negb shouldSend then None
  else
    Some (SendEmail smtp now content (smtpHost cfg) (emailName cfg)
            (emailPassword cfg) (emailTo cfg)).

(** The second function, with [SendServerChan]. *)
Definition serverChanAttempt : option (option Err) :=
  let '(title, body, shouldSend) :=
    GenerateServerChanMessage FormatFloat today fundResult
      minRiseNum maxFallNum in
  let shouldSend :=
    if String.eqb (serverChanKey cfg) "" then false else shouldSend in
  if negb shouldSend then None
  else Some (SendServerChan network title body (serverChanKey cfg)).

(** One operation of a function of the group on the variable [err]:
    the new program point and the new value of [err]. *)
Definition stepTask (attempt : option (option Err)) (pc : TaskPC)
    (err : option Err) : option (TaskPC * option Err) :=
  match pc with
  | TaskStart =>
      match attempt with
      | None => Some (TaskReturned None, err)
      | Some r => Some (TaskAssigned, r)         (* err = Send...(...) *)
      end
  | TaskAssigned =>
      match err with                             (* if err != nil *)
      | Some _ => Some (TaskFailed, err)
      | None => Some (TaskReturned None, err)
      end
  | TaskFailed => Some (TaskReturned err, err)   (* return err *)
  | TaskReturned _ => None
  end.

(** The group keeps the first error that a function returns. *)
Definition collect (pc : TaskPC) (group : option Err) : option Err :=
  match group, pc with
  | None, TaskReturned (Some e) => Some e
  | _, _ => group
  end.

Definition stepNotify (s : NotifyState) (t : Task) : option NotifyState :=
  match t with
  | EmailTask =>
      match stepTask emailAttempt (emailTask s) (mainErr s) with
      | Some (pc, err) =>
          Some (mkNotifyState err pc (serverChanTask s) (collect pc (groupErr s)))
      | None => None
      end
  | ServerChanTask =>
      match stepTask serverChanAttempt (serverChanTask s) (mainErr s) with
      | Some (pc, err) =>
          Some (mkNotifyState err (emailTask s) pc (collect pc (groupErr s)))
      | None => None
      end
  end.

Fixpoint runNotify (s : NotifyState) (schedule : list Task)
    : option NotifyState :=
  match schedule with
  | [] => Some s
  | t :: rest =>
      match stepNotify s t with
      | Some s' => runNotify s' rest
      | None => None
      end
  end.

End Notify.

(** [errGroup.Wait()] returns when both functions have returned. *)
Definition notifyDone (s : NotifyState) : Prop :=
  (exists r, emailTask s = TaskReturned r) /\
  (exists r, serverChanTask s = TaskReturned r).

(** * Statements and invariants *)

(** The statement that a classification looks at the thresholds alone. *)
Definition classifies_by_thresholds
    (status : Fund -> float64 -> float64 -> string) : Prop :=
  forall fund minRiseNum maxFallNum,
    (status fund minRiseNum maxFallNum = "涨" <->
       ge (Gszzl fund) minRiseNum = true) /\
    (status fund minRiseNum maxFallNum = "跌" <->
       le (Gszzl fund) maxFallNum = true) /\
    (status fund minRiseNum maxFallNum = "-" <->
       ge (Gszzl fund) minRiseNum = false /\
       le (Gszzl fund) maxFallNum = false).

(** The statement that the title is cut by characters. *)
Definition title_cut_by_characters : Prop :=
  forall title body serverChanKey req,
    SendServerChan_request title body serverChanKey = Ok req ->
    ((256 < charCount title)%nat -> charCount (text req) = 256%nat) /\
    ((charCount title <= 256)%nat -> text req = title).

(** ** Invariants of the runs of FetchFunds *)

(** A worker holds a value of [limiter] until it has received from it. *)
Definition alive (w : Worker) : nat :=
  match wpc w with WExit _ => 0 | _ => 1 end.

(** A worker counts in the wait group until it has called [wg.Done]. *)
Definition pending (w : Worker) : nat :=
  match wpc w with WRelease _ | WExit _ => 0 | _ => 1 end.

(** The dispatcher holds a value of [limiter] between its send and the
    start of the worker. *)
Definition holding (d : DispatcherPC) : nat :=
  match d with DAcquire _ => 0 | DSpawn _ _ => 1 end.

(** The identifiers whose worker is still to be started. *)
Definition todo (d : DispatcherPC) : list string :=
  match d with DAcquire rest => rest | DSpawn code rest => code :: rest end.

(** The values buffered in [limiter] are held by the workers that have
    not finished and by the dispatcher; there are at most
    [concurrency] of them. *)
Definition gate_inv (s : State) : Prop :=
  limiter s = sum_list_with alive (workers s) + holding (dispatcher s) /\
  limiter s <= concurrency.

(** The counter of the wait group counts the identifiers whose worker
    has not called [wg.Done]. *)
Definition wg_inv (s : State) : Prop :=
  wg s = sum_list_with pending (workers s) + length (todo (dispatcher s)).

(** The channels are closed by the closer, in order, once the counter
    of the wait group is zero. *)
Definition closer_inv (s : State) : Prop :=
  match closer s with
  | CWait => foundCh_closed s = false /\ errCh_closed s = false
  | CCloseFound => wg s = 0 /\ foundCh_closed s = false /\ errCh_closed s = false
  | CCloseErr => wg s = 0 /\ foundCh_closed s = true /\ errCh_closed s = false
  | CExit => wg s = 0 /\ foundCh_closed s = true /\ errCh_closed s = true
  end.

(** The range loop ends when foundCh is closed. *)
Definition main_inv (s : State) : Prop :=
  match main s with
  | MRange => True
  | _ => foundCh_closed s = true
  end.

(** The workers run the identifiers in the order of [codes]. *)
Definition codes_inv (codes : list string) (s : State) : Prop :=
  map wcode (workers s) ++ todo (dispatcher s) = codes.

Definition sync_inv (s : State) : Prop :=
  gate_inv s /\ wg_inv s /\ closer_inv s /\ main_inv s.

(** The next operation of some goroutine is a panic: a send on a closed
    channel, a negative counter of the wait group, the close of a
    closed channel. *)
Definition panics (s : State) : Prop :=
  (exists i w err,
     workers s !! i = Some w /\ wpc w = WPublish err /\ errCh_closed s = true) \/
  (exists i w fund,
     workers s !! i = Some w /\ wpc w = WSend fund /\ foundCh_closed s = true) \/
  (exists i w o,
     workers s !! i = Some w /\ wpc w = WDone o /\ wg s = 0) \/
  (closer s = CCloseFound /\ foundCh_closed s = true) \/
  (closer s = CCloseErr /\ errCh_closed s = true).

(** The remaining operations of each goroutine, an upper bound. *)
Definition worker_steps (w : Worker) : nat :=
  match wpc w with
  | WStart => 5
  | WFetching => 4
  | WPublish _ | WSend _ => 3
  | WDone _ => 2
  | WRelease _ => 1
  | WExit _ => 0
  end.

Definition dispatcher_steps (d : DispatcherPC) : nat :=
  match d with
  | DAcquire rest => 7 * length rest
  | DSpawn _ rest => 6 + 7 * length rest
  end.

Definition closer_steps (c : CloserPC) : nat :=
  match c with CWait => 3 | CCloseFound => 2 | CCloseErr => 1 | CExit => 0 end.

Definition main_steps (m : MainPC) : nat :=
  match m with MRange => 3 | MSort => 2 | MRecvErr => 1 | MReturned _ _ => 0 end.

Definition steps_left (s : State) : nat :=
  dispatcher_steps (dispatcher s) + sum_list_with worker_steps (workers s) +
  closer_steps (closer s) + main_steps (main s).

(** [errCh] holds the first error that was offered to it, until the
    caller receives it, and nothing else is ever stored. *)
Definition err_inv (s : State) : Prop :=
  stored (history s) = take 1 (published (history s)) /\
  match main s with
  | MReturned _ err => err = head (published (history s))
  | _ => errCh s = head (published (history s))
  end.

(** The errors offered to [errCh] are the tagged errors of the failed
    fetches. *)
Definition failures_inv (s : State) : Prop :=
  published (history s) ≡ₚ failures s.

(** Every adjacent pair [(a, b)] of [l] is in the relation [R]. *)
Definition adjacent {A : Type} (R : A -> A -> Prop) (l : list A) : Prop :=
  forall i a b, l !! i = Some a -> l !! S i = Some b -> R a b.

(** The order that [sort.Slice] establishes with [lessFund]: no record
    is less than the one before it. *)
Definition keySorted (l : list Fund) : Prop :=
  adjacent (fun a b => lessFund b a = false) l.

(** Ascending order of the growth. *)
Definition growthSorted (l : list Fund) : Prop :=
  adjacent (fun a b => le (Gszzl a) (Gszzl b) = true) l.

(** The variable [funds] holds the records received so far; it is
    sorted when [sort.Slice] has run. *)
Definition funds_inv (s : State) : Prop :=
  match main s with
  | MRange | MSort => funds s ≡ₚ successes s
  | MRecvErr => funds s ≡ₚ successes s /\ keySorted (funds s)
  | MReturned fs _ => fs ≡ₚ successes s /\ keySorted fs
  end.

(** The identifier of a worker that has called [FetchFund]. *)
Definition request_of (w : Worker) : option string :=
  match wpc w with
  | WStart | WDone Skipped | WRelease Skipped | WExit Skipped => None
  | _ => Some (wcode w)
  end.

(** A worker calls [FetchFund] exactly when its identifier is not
    empty. *)
Definition worker_ok (w : Worker) : Prop :=
  match wpc w with
  | WStart => True
  | WDone Skipped | WRelease Skipped | WExit Skipped => wcode w = ""
  | _ => wcode w <> ""
  end.

Definition request_inv (s : State) : Prop :=
  Forall worker_ok (workers s) /\
  requested (history s) ≡ₚ omap request_of (workers s).


(** [adjacent], by recursion on the list. *)
Fixpoint chain {A : Type} (R : A -> A -> Prop) (l : list A) : Prop :=
  match l with
  | [] => True
  | a :: rest =>
      match rest with [] => True | b :: _ => R a b end /\ chain R rest
  end.

(** Every identifier has had its worker, and every worker has its
    outcome. *)
Definition complete (codes : list string) (s : State) : Prop :=
  map wcode (workers s) = codes /\
  Forall (fun w => pending w = 0) (workers s).

(** ** Example runs *)

(** Four identifiers, the second one empty: the fetch of the first and
    of the last fail, the fetch of the third succeeds. *)
Definition demo_codes : list string := ["a"; ""; "b"; "c"].

Definition demo_fund : Fund :=
  mkFund "b" "B" "2019-10-31" (lit 3.6009) (lit 3.6490) (lit 1.34)
    "2019-11-01 15:00".

Definition demo_schedule : list Action :=
  [ ActDispatcher; ActDispatcher; ActWorker 0;
    ActDispatcher; ActDispatcher; ActWorker 1;
    ActDispatcher; ActDispatcher; ActWorker 2;
    ActFetchReturn 0 (Error (ErrLib "timeout"));
    ActWorker 0; ActWorker 0; ActWorker 0;
    ActDispatcher; ActDispatcher; ActWorker 3;
    ActFetchReturn 2 (Ok demo_fund); ActWorker 2;
    ActFetchReturn 3 (Error (ErrLib "refused")); ActWorker 3;
    ActWorker 1; ActWorker 1; ActWorker 2; ActWorker 2;
    ActWorker 3; ActWorker 3;
    ActCloser; ActCloser; ActCloser;
    ActMain; ActMain; ActMain ].

(** Three calls of [FetchFund] in flight, and a fourth identifier
    waiting. *)
Definition full_codes : list string := ["a"; "b"; "c"; "d"].

Definition full_schedule : list Action :=
  [ ActDispatcher; ActDispatcher; ActWorker 0;
    ActDispatcher; ActDispatcher; ActWorker 1;
    ActDispatcher; ActDispatcher; ActWorker 2 ].

(** Two funds whose growths differ by less than the rounding of
    [Gszzl+1]: the upstream reports a fall of 1e-17 percent for the
    first and of 2e-17 percent for the second. *)
Definition tie_body (code gszzl : string) : string :=
  "jsonpgz({" +:+
  jsonMember "fundcode" code +:+ "," +:+
  jsonMember "name" "X" +:+ "," +:+
  jsonMember "jzrq" "2019-10-31" +:+ "," +:+
  jsonMember "dwjz" "3.6009" +:+ "," +:+
  jsonMember "gsz" "3.6009" +:+ "," +:+
  jsonMember "gszzl" gszzl +:+ "," +:+
  jsonMember "gztime" "2019-11-01 15:00" +:+
  "});".

Definition tie_codes : list string := ["000001"; "000002"].

Definition tie_schedule : list Action :=
  [ ActDispatcher; ActDispatcher; ActWorker 0;
    ActFetchReturn 0
      (FetchFund "000001"
         (ResponseBody (tie_body "000001" "-0.00000000000000001")));
    ActWorker 0; ActWorker 0; ActWorker 0;
    ActDispatcher; ActDispatcher; ActWorker 1;
    ActFetchReturn 1
      (FetchFund "000002"
         (ResponseBody (tie_body "000002" "-0.00000000000000002")));
    ActWorker 1; ActWorker 1; ActWorker 1;
    ActCloser; ActCloser; ActCloser;
    ActMain; ActMain; ActMain ].

(** ** Further statements *)

(** The JSON text of the example, without the call that wraps it. *)
Definition cannedPayload : string :=
  "{" +:+
  jsonMember "fundcode" "180012" +:+ "," +:+
  jsonMember "name" "X" +:+ "," +:+
  jsonMember "jzrq" "2019-10-31" +:+ "," +:+
  jsonMember "dwjz" "3.6009" +:+ "," +:+
  jsonMember "gsz" "3.6490" +:+ "," +:+
  jsonMember "gszzl" "1.34" +:+ "," +:+
  jsonMember "gztime" "2019-11-01 15:00" +:+
  "}".

(** Once the caller has received from errCh, its buffer stays empty. *)
Definition drained_inv (s : State) : Prop :=
  returned s <> None -> errCh s = None.

(** Every goroutine of FetchFunds has finished. *)
Definition finished (s : State) : Prop :=
  dispatcher s = DAcquire [] /\
  Forall (fun w => alive w = 0) (workers s) /\
  closer s = CExit /\
  returned s <> None.

(** The worker goroutines that have been started and have not
    finished. *)
Definition alive_workers (s : State) : nat :=
  sum_list_with alive (workers s).

(** The records whose growth is below 0 and at most [maxFallNum]. *)
Definition falls (funds : list Fund) (maxFallNum : float64) : nat :=
  sum_list_with
    (fun fund =>
       if lt (Gszzl fund) zero && le (Gszzl fund) maxFallNum then 1 else 0)
    funds.

(** A run of the two notification tasks: the email fails and the
    webhook succeeds. *)
Definition race_config : Config :=
  mkConfig "smtp.example.com" "me@example.com" "secret" "you@example.com" "key".

Definition race_smtp (m : Mail) : option Err := Some (ErrLib "dial tcp: timeout").

Definition race_network (req : ServerChanRequest) : ServerChanReply :=
  ReplyStatus 200.

Definition race_schedule : list Task :=
  [EmailTask; ServerChanTask; EmailTask; ServerChanTask].



(** What a task of the group can have done when no send fails. *)
Definition task_quiet (pc : TaskPC) : Prop :=
  pc = TaskStart \/ pc = TaskAssigned \/ pc = TaskReturned None.

(** What a task of the group can have done when every send fails:
    after its assignment [err] is not nil, and it returns nil only when
    it has not sent. *)
Definition task_loud (attempt : option (option Err)) (pc : TaskPC)
    (err group : option Err) : Prop :=
  match pc with
  | TaskStart => True
  | TaskAssigned | TaskFailed => err <> None
  | TaskReturned None => attempt = None
  | TaskReturned (Some _) => group <> None
  end.


(** ** The fetches of a schedule *)

(** The statements on what FetchFunds returns speak of the calls of
    FetchFund through the schedule alone: the action
    [ActFetchReturn i r] carries the result [r] of the call made for
    the [i]-th identifier. *)

(** The results with which the call of FetchFund for the [i]-th
    identifier returns in a schedule. *)
Definition fetchResults (i : nat) (schedule : list Action)
    : list (Result Fund) :=
  omap (fun a =>
          match a with
          | ActFetchReturn j r => if Nat.eqb j i then Some r else None
          | _ => None
          end) schedule.

(** The records of the calls of FetchFund that succeed, in the order
    of their return. *)
Definition fetchedRecords (schedule : list Action) : list Fund :=
  omap (fun a =>
          match a with
          | ActFetchReturn _ (Ok fund) => Some fund
          | _ => None
          end) schedule.

(** The calls of FetchFund that fail, in the order of their return:
    the index of the identifier and the error. *)
Definition failedFetches (schedule : list Action) : list (nat * Err) :=
  omap (fun a =>
          match a with
          | ActFetchReturn i (Error err) => Some (i, err)
          | _ => None
          end) schedule.

(** [errors.Errorf(err, "code:%s", code)] for the error [err] of the
    fetch of the [i]-th identifier of [codes]. *)
Definition tagError (codes : list string) (failure : nat * Err) : Err :=
  Errorf (Some failure.2) ("code:" +:+ default "" (codes !! failure.1)).

(** The order in which the failed fetches come to errCh.  The worker
    of a fetch that has failed reaches the select statement with its
    next operation.  The first component lists the failed fetches that
    have come to errCh, in this order; the second one holds the failed
    fetches whose worker has not yet performed its next operation. *)
Definition offerStep (st : list (nat * Err) * gmap nat Err) (a : Action)
    : list (nat * Err) * gmap nat Err :=
  match a with
  | ActFetchReturn i (Error err) => (st.1, <[i := err]> st.2)
  | ActWorker i =>
      match st.2 !! i with
      | Some err => (st.1 ++ [(i, err)], delete i st.2)
      | None => st
      end
  | _ => st
  end.

Definition offers (schedule : list Action) : list (nat * Err) * gmap nat Err :=
  fold_left offerStep schedule ([], ∅).

(** The failed fetches in the order in which their workers offer the
    error to errCh. *)
Definition offered (schedule : list Action) : list (nat * Err) :=
  (offers schedule).1.

(** *** What the schedule tells of a worker *)

(** The record that a worker has got from its fetch. *)
Definition got (w : Worker) : option Fund :=
  match wpc w with
  | WSend fund => Some fund
  | _ => fetched w
  end.

(** The error of the fetch of a worker that is at the select statement. *)
Definition waitingOf (w : Worker) : option Err :=
  match wpc w with
  | WPublish (ErrAnnot cause _) => Some cause
  | _ => None
  end.

(** The program point of a worker agrees with the results [rs] of its
    fetch: no result before the call returns and for an empty
    identifier, the record in hand after a success, the tagged error
    after a failure. *)
Definition fetch_seen (w : Worker) (rs : list (Result Fund)) : Prop :=
  match wpc w with
  | WStart | WFetching | WDone Skipped | WRelease Skipped | WExit Skipped =>
      rs = []
  | WSend fund | WDone (Fetched fund) | WRelease (Fetched fund)
  | WExit (Fetched fund) =>
      rs = [Ok fund]
  | WPublish err | WDone (Failed err) | WRelease (Failed err)
  | WExit (Failed err) =>
      exists cause,
        rs = [Error cause] /\ err = Errorf (Some cause) ("code:" +:+ wcode w)
  end.

(** The records in the hands of the workers are the ones that the
    fetches of the schedule have returned. *)
Definition records_trace (schedule : list Action) (s : State) : Prop :=
  fetchedRecords schedule ≡ₚ omap got (workers s).

(** Every worker is where the results of its fetch in the schedule put
    it; there is no result for an identifier without a worker. *)
Definition workers_trace (schedule : list Action) (s : State) : Prop :=
  forall i,
    match workers s !! i with
    | Some w => fetch_seen w (fetchResults i schedule)
    | None => fetchResults i schedule = []
    end.

(** The errors offered to errCh are the tagged errors of the failed
    fetches, in the order in which their workers have reached the
    select statement; the other failed fetches are the ones of the
    workers that are at it. *)
Definition offers_trace (codes : list string) (schedule : list Action)
    (s : State) : Prop :=
  published (history s) = map (tagError codes) (offers schedule).1 /\
  (forall i, (offers schedule).2 !! i = workers s !! i ≫= waitingOf) /\
  failedFetches schedule ≡ₚ (offers schedule).1 ++ map_to_list (offers schedule).2.

Definition trace_inv (codes : list string) (schedule : list Action)
    (s : State) : Prop :=
  records_trace schedule s /\ workers_trace schedule s /\
  offers_trace codes schedule s.



(** * Properties *)

(** ** float64 comparisons *)

Lemma compare_cont_Eq_antisym (p q : positive) :
  Pos.compare_cont Eq q p = CompOpp (Pos.compare_cont Eq p q).
Proof. by rewrite (Pos.compare_cont_antisym p q Eq). Qed.

Lemma SFcompare_antisym (x y : spec_float) :
  SFcompare y x = option_map CompOpp (SFcompare x y).
Proof.
  destruct x as [sx|sx| |sx mx ex], y as [sy|sy| |sy my ey]; simpl;
    try reflexivity;
    try (destruct sx; reflexivity);
    try (destruct sy; reflexivity);
    try (destruct sx, sy; reflexivity).
  rewrite (Z.compare_antisym ex ey), compare_cont_Eq_antisym.
  destruct sx, sy; try reflexivity;
    destruct (ex ?= ey)%Z; simpl; try reflexivity;
    destruct (Pos.compare_cont Eq mx my); reflexivity.
Qed.

(** [<] on float64 is asymmetric, NaN included. *)
Lemma lt_asym (x y : float64) : lt x y = true -> lt y x = false.
Proof.
  unfold lt, SFltb. rewrite (SFcompare_antisym x y).
  by destruct (SFcompare x y) as [[]|].
Qed.

(** A value at least a positive one is positive, and a value at most a
    negative one is negative. *)
Lemma ge_positive (m g : float64) :
  gt m zero = true -> ge g m = true -> gt g zero = true.
Proof.
  unfold gt, ge, zero, SFltb, SFleb.
  destruct m as [sm|sm| |sm mm em], g as [sg|sg| |sg mg eg]; simpl;
    try discriminate; try reflexivity;
    try (destruct sm; simpl; try discriminate);
    try (destruct sg; simpl; try discriminate); try reflexivity.
Qed.

Lemma le_negative (m g : float64) :
  lt m zero = true -> le g m = true -> lt g zero = true.
Proof.
  unfold lt, le, zero, SFltb, SFleb.
  destruct m as [sm|sm| |sm mm em], g as [sg|sg| |sg mg eg]; simpl;
    try discriminate; try reflexivity;
    try (destruct sm; simpl; try discriminate);
    try (destruct sg; simpl; try discriminate); try reflexivity.
Qed.

(** ** The formatters *)

(** C5, as stated, fails: with a minimum rise of 0 and a maximum fall of
    -0.8, a fund whose growth is 0 reaches the minimum rise and is
    classified as neutral, because a rise also needs a growth above 0. *)
Lemma classifies_by_thresholds_fails :
  ~ classifies_by_thresholds GenerateEmailHTML_status.
Proof.
  intros H.
  destruct (H (mkFund "" "" "" zero zero zero "") zero (lit (-0.8)))
    as [[_ Hrise] _].
  specialize (Hrise eq_refl). vm_compute in Hrise. discriminate.
Qed.

(** C5, amended: both formatters classify a record as a rise exactly
    when its growth is above 0 and at least the minimum rise, as a fall
    exactly when its growth is below 0 and at most the maximum fall, and
    as neutral exactly when it is neither. *)
Theorem status_classification fund minRiseNum maxFallNum fallCount :
  let g := Gszzl fund in
  let rise := gt g zero && ge g minRiseNum in
  let fall := lt g zero && le g maxFallNum in
  let email := GenerateEmailHTML_status fund minRiseNum maxFallNum in
  let serverChan :=
    fst (GenerateServerChanMessage_status fund minRiseNum maxFallNum fallCount) in
  (email = "涨" <-> rise = true) /\
  (email = "跌" <-> fall = true) /\
  (email = "-" <-> rise = false /\ fall = false) /\
  (serverChan = "涨" <-> rise = true) /\
  (serverChan = "跌" <-> fall = true) /\
  (serverChan = "-" <-> rise = false /\ fall = false).
Proof.
  cbv zeta.
  unfold GenerateEmailHTML_status, GenerateServerChanMessage_status.
  destruct (gt (Gszzl fund) zero) eqn:Hpos.
  - assert (Hneg : lt (Gszzl fund) zero = false) by (by apply lt_asym).
    rewrite Hneg. simpl.
    destruct (ge (Gszzl fund) minRiseNum); simpl; intuition congruence.
  - simpl.
    destruct (lt (Gszzl fund) zero && le (Gszzl fund) maxFallNum); simpl;
      intuition congruence.
Qed.

(** The thresholds of [main], 1 and -0.8: a growth of 1.34 is a rise,
    a growth of -0.9 is a fall and a growth of 0.2 is neutral. *)
Example status_of_main_thresholds :
  let fund g := mkFund "180012" "X" "2019-10-31" (lit 3.6009) (lit 3.6490) g
                  "2019-11-01 15:00" in
  GenerateEmailHTML_status (fund (lit 1.34)) (lit 1) (lit (-0.8)) = "涨" /\
  GenerateEmailHTML_status (fund (lit (-0.9))) (lit 1) (lit (-0.8)) = "跌" /\
  GenerateEmailHTML_status (fund (lit 0.2)) (lit 1) (lit (-0.8)) = "-".
Proof. repeat split; vm_compute; reflexivity. Qed.

(** With a minimum rise above 0 and a maximum fall below 0, as in
    [main], the thresholds alone decide between rise and fall. *)
Lemma status_signed_thresholds fund minRiseNum maxFallNum :
  gt minRiseNum zero = true -> lt maxFallNum zero = true ->
  (GenerateEmailHTML_status fund minRiseNum maxFallNum = "涨" <->
     ge (Gszzl fund) minRiseNum = true) /\
  (GenerateEmailHTML_status fund minRiseNum maxFallNum = "跌" <->
     le (Gszzl fund) maxFallNum = true).
Proof.
  intros Hmin Hmax. unfold GenerateEmailHTML_status.
  pose proof (ge_positive minRiseNum (Gszzl fund) Hmin) as Hpos.
  pose proof (le_negative maxFallNum (Gszzl fund) Hmax) as Hneg.
  pose proof (lt_asym (Gszzl fund) zero) as Hasym.
  unfold gt, lt in *.
  destruct (ge (Gszzl fund) minRiseNum), (le (Gszzl fund) maxFallNum).
  - specialize (Hasym (Hneg eq_refl)). specialize (Hpos eq_refl). congruence.
  - rewrite (Hpos eq_refl). simpl. split; split; congruence.
  - rewrite (Hasym (Hneg eq_refl)), (Hneg eq_refl). simpl.
    split; split; congruence.
  - rewrite !andb_false_r. split; split; congruence.
Qed.

Lemma fold_left_snoc_length {A B : Type} (f : B -> A) (l : list B) (acc : list A) :
  length (fold_left (fun elements x => elements ++ [f x]) l acc) =
  (length acc + length l)%nat.
Proof.
  revert acc. induction l as [|x l IH]; intros acc; simpl; [lia|].
  rewrite IH, length_app. simpl. lia.
Qed.

Lemma GenerateEmailHTML_loop_length FormatFloat funds minRiseNum maxFallNum :
  length (GenerateEmailHTML_loop FormatFloat funds minRiseNum maxFallNum) =
  length funds.
Proof. unfold GenerateEmailHTML_loop. by rewrite fold_left_snoc_length. Qed.

Lemma GenerateServerChanMessage_loop_length
    FormatFloat funds minRiseNum maxFallNum :
  length (fst (GenerateServerChanMessage_loop
                 FormatFloat funds minRiseNum maxFallNum)) = length funds.
Proof.
  unfold GenerateServerChanMessage_loop.
  enough (H : forall acc,
    length (fst (fold_left
      (fun '(elements, fallCount) fund =>
         let '(status, fallCount') :=
           GenerateServerChanMessage_status fund minRiseNum maxFallNum fallCount in
         (elements ++ [GenerateServerChanMessage_element FormatFloat fund status],
          fallCount')) funds acc)) = (length (fst acc) + length funds)%nat)
    by (by rewrite H).
  induction funds as [|fund funds IH]; intros [elements n]; simpl; [lia|].
  destruct (GenerateServerChanMessage_status fund minRiseNum maxFallNum n)
    as [status n'].
  rewrite IH. simpl. rewrite length_app. simpl. lia.
Qed.

(** C9: the flag [shouldSend] of both formatters is false when there is
    no record and true when there is one or more, whatever the
    thresholds and the classification of the records. *)
Theorem shouldSend_iff_nonempty FormatFloat today funds minRiseNum maxFallNum :
  snd (GenerateEmailHTML FormatFloat funds minRiseNum maxFallNum) =
    match funds with [] => false | _ :: _ => true end /\
  snd (GenerateServerChanMessage FormatFloat today funds minRiseNum maxFallNum) =
    match funds with [] => false | _ :: _ => true end.
Proof.
  unfold GenerateEmailHTML, GenerateServerChanMessage.
  pose proof (GenerateEmailHTML_loop_length
                FormatFloat funds minRiseNum maxFallNum) as He.
  pose proof (GenerateServerChanMessage_loop_length
                FormatFloat funds minRiseNum maxFallNum) as Hs.
  destruct (GenerateServerChanMessage_loop FormatFloat funds minRiseNum maxFallNum)
    as [elements n]. simpl in Hs.
  cbv zeta. rewrite He, Hs.
  destruct funds; simpl; auto.
Qed.

(** C10: the two formatters give every record the same classification,
    for all thresholds. *)
Theorem formatters_same_status fund minRiseNum maxFallNum fallCount :
  GenerateEmailHTML_status fund minRiseNum maxFallNum =
  fst (GenerateServerChanMessage_status fund minRiseNum maxFallNum fallCount).
Proof.
  unfold GenerateEmailHTML_status, GenerateServerChanMessage_status.
  destruct (gt (Gszzl fund) zero && ge (Gszzl fund) minRiseNum); [done|].
  by destruct (lt (Gszzl fund) zero && le (Gszzl fund) maxFallNum).
Qed.

(** ** The webhook title *)

Lemma slice_to_length (n : nat) (s : string) :
  len (slice_to n s) = Nat.min n (len s).
Proof.
  unfold len. revert s. induction n as [|n IH]; intros [|c s]; simpl; auto.
Qed.

(** C8, as stated, fails: a title of 86 characters of three bytes each
    has fewer than 256 characters and more than 256 bytes; it is cut in
    the middle of its last character. *)
Lemma title_cut_by_characters_fails : ~ title_cut_by_characters.
Proof.
  intros H.
  destruct (H (fallMarks 86) "body" "key" _ eq_refl) as [_ Hsame].
  assert (Hcount : (charCount (fallMarks 86) <= 256)%nat) by (vm_compute; lia).
  specialize (Hsame Hcount). vm_compute in Hsame. discriminate.
Qed.

(** C8, amended: when the title and the key are not empty a request is
    made; a title longer than 256 bytes is sent as its first 256 bytes,
    a title of 256 bytes or fewer is sent unchanged. *)
Theorem SendServerChan_title_bytes title body serverChanKey :
  title <> "" -> serverChanKey <> "" ->
  exists req,
    SendServerChan_request title body serverChanKey = Ok req /\
    ((256 < len title)%nat ->
       text req = slice_to 256 title /\ len (text req) = 256%nat) /\
    ((len title <= 256)%nat -> text req = title) /\
    desp req = body.
Proof.
  intros Htitle Hkey. unfold SendServerChan_request.
  destruct (String.eqb_spec title ""); [done|].
  destruct (String.eqb_spec serverChanKey ""); [done|].
  eexists. split; [reflexivity|]. cbn [text desp].
  destruct (Nat.ltb_spec 256 (len title)) as [Hlong|Hshort].
  - split; [|split]; [|lia|reflexivity].
    intros _. split; [reflexivity|]. rewrite slice_to_length. lia.
  - split; [|split]; [lia| |reflexivity]. reflexivity.
Qed.

Lemma SendServerChan_title_bytes_witness :
  exists req,
    SendServerChan_request (fallMarks 86) "body" "key" = Ok req /\
    len (text req) = 256%nat.
Proof.
  destruct (SendServerChan_title_bytes (fallMarks 86) "body" "key")
    as (req & Hreq & Hlong & _); [discriminate | discriminate |].
  exists req. split; [exact Hreq|].
  apply Hlong. vm_compute. lia.
Defined.

(** ** The strip-and-parse step of FetchFund *)

(** C7: on the response body of the example, [FetchFund] strips the
    prefix and the suffix, and the remaining text unmarshals to the
    record of the example; its decimal fields are the float64 values
    nearest to 3.6009, 3.6490 and 1.34. *)
Theorem FetchFund_canned_body code :
  TrimSuffix (TrimPrefix cannedBody bodyPrefix) bodySuffix =
    "{" +:+
    jsonMember "fundcode" "180012" +:+ "," +:+
    jsonMember "name" "X" +:+ "," +:+
    jsonMember "jzrq" "2019-10-31" +:+ "," +:+
    jsonMember "dwjz" "3.6009" +:+ "," +:+
    jsonMember "gsz" "3.6490" +:+ "," +:+
    jsonMember "gszzl" "1.34" +:+ "," +:+
    jsonMember "gztime" "2019-11-01 15:00" +:+
    "}" /\
  FetchFund code (ResponseBody cannedBody) =
    Ok {| FundCode := "180012";
          Name := "X";
          JzRq := "2019-10-31";
          Dwjz := lit 3.6009;
          Gsz := lit 3.6490;
          Gszzl := lit 1.34;
          Gztime := "2019-11-01 15:00" |}.
Proof. split; vm_compute; reflexivity. Qed.

(** ** Runs of FetchFunds: gate, wait group and channels *)

Lemma sum_list_with_insert {A : Type} (f : A -> nat) (l : list A) i x y :
  l !! i = Some x ->
  sum_list_with f (<[i:=y]> l) + f x = sum_list_with f l + f y.
Proof.
  revert i. induction l as [|a l IH]; intros [|i] H; simpl in *; try done.
  - injection H as ->. lia.
  - specialize (IH _ H). lia.
Qed.

Lemma sum_list_with_le {A : Type} (f g : A -> nat) (l : list A) :
  (forall x, f x <= g x) -> sum_list_with f l <= sum_list_with g l.
Proof.
  intros H. induction l as [|a l IH]; simpl; [lia|]. specialize (H a). lia.
Qed.

Lemma sum_list_with_zero {A : Type} (f : A -> nat) (l : list A) x :
  sum_list_with f l = 0 -> x ∈ l -> f x = 0.
Proof.
  induction l as [|a l IH]; simpl; intros H Hin.
  - by apply elem_of_nil in Hin.
  - apply elem_of_cons in Hin as [->|Hin]; [lia|]. apply IH; [lia|done].
Qed.

(** Case analysis on a step: the goroutine that moves and its program
    point. *)
Ltac step_cases H :=
  match type of H with
  | step _ ?a = Some _ =>
      destruct a; simpl in H;
      unfold stepDispatcher, stepWorker, stepFetchReturn, stepCloser, stepMain,
        set_pc in H;
      repeat case_match; simplify_eq;
      try match goal with
          | Hw : workers _ !! _ = Some ?w |- _ =>
              destruct w as [? ?]; simpl in *; subst
          end
  end.

(** The weight of worker [i] before and after it moves. *)
Ltac weigh f :=
  match goal with
  | Hw : workers ?s !! ?i = Some ?w |- context [<[?i := ?w']> (workers ?s)] =>
      let E := fresh "E" in
      pose proof (sum_list_with_insert f (workers s) i w w' Hw) as E;
      cbn [f wpc] in E
  end.

Ltac arith :=
  repeat match goal with
         | Hlt : (_ <? _)%nat = true |- _ => apply Nat.ltb_lt in Hlt
         | Hd : dispatcher _ = _ |- _ => rewrite Hd in *
         | Hd : closer _ = _ |- _ => rewrite Hd in *
         | Hd : main _ = _ |- _ => rewrite Hd in *
         end;
  simpl in *; unfold concurrency in *; try lia.

Lemma gate_inv_init codes : gate_inv (init codes).
Proof. split; simpl; unfold concurrency; lia. Qed.

Lemma gate_inv_step s a s' : gate_inv s -> step s a = Some s' -> gate_inv s'.
Proof.
  intros [Hl Hc] H. unfold gate_inv in *.
  step_cases H; simpl; try rewrite sum_list_with_app; simpl;
    try weigh alive; arith.
Qed.

Lemma wg_inv_init codes : wg_inv (init codes).
Proof. unfold wg_inv. simpl. lia. Qed.

Lemma wg_inv_step s a s' : wg_inv s -> step s a = Some s' -> wg_inv s'.
Proof.
  intros Hw H. unfold wg_inv in *.
  step_cases H; simpl; try rewrite sum_list_with_app; simpl;
    try weigh pending; arith.
Qed.

Lemma closer_inv_init codes : closer_inv (init codes).
Proof. by split. Qed.

Lemma closer_inv_step s a s' :
  closer_inv s -> step s a = Some s' -> closer_inv s'.
Proof.
  intros Hc H. unfold closer_inv in *.
  step_cases H; simpl; try done; arith;
    destruct (closer s); simpl in *; intuition (try lia; try congruence).
Qed.

Lemma main_inv_init codes : main_inv (init codes).
Proof. done. Qed.

Lemma main_inv_step s a s' : main_inv s -> step s a = Some s' -> main_inv s'.
Proof.
  intros Hm H. unfold main_inv in *.
  step_cases H; simpl; try done; arith;
    destruct (main s); simpl in *; congruence.
Qed.

Lemma codes_inv_init codes : codes_inv codes (init codes).
Proof. done. Qed.

Lemma list_fmap_insert_same {A B : Type} (f : A -> B) (l : list A) i x y :
  l !! i = Some x -> f y = f x -> f <$> <[i:=y]> l = f <$> l.
Proof.
  intros Hx Hf. rewrite list_fmap_insert, Hf.
  apply list_insert_id. by rewrite list_lookup_fmap, Hx.
Qed.

Lemma codes_inv_step codes s a s' :
  codes_inv codes s -> step s a = Some s' -> codes_inv codes s'.
Proof.
  intros Hc H. unfold codes_inv in *.
  step_cases H; simpl; arith; try done;
    try (rewrite (list_fmap_insert_same wcode _ _ _ _ ltac:(eassumption)); done).
  rewrite map_app. simpl. by rewrite <- app_assoc.
Qed.

Lemma sync_inv_init codes : sync_inv (init codes).
Proof.
  repeat split; simpl; unfold concurrency; lia.
Qed.

Lemma sync_inv_step s a s' : sync_inv s -> step s a = Some s' -> sync_inv s'.
Proof.
  intros (Hg & Hw & Hc & Hm) H.
  split; [|split; [|split]];
    eauto using gate_inv_step, wg_inv_step, closer_inv_step, main_inv_step.
Qed.

(** An invariant of the steps holds after every schedule. *)
Lemma run_invariant (P : State -> Prop) :
  (forall s a s', P s -> step s a = Some s' -> P s') ->
  forall schedule s s', P s -> run s schedule = Some s' -> P s'.
Proof.
  intros Hstep schedule.
  induction schedule as [|a rest IH]; intros s s' Hs Hrun; simpl in Hrun.
  - by injection Hrun as <-.
  - destruct (step s a) as [s1|] eqn:Ha; [|done]. eauto.
Qed.

Lemma run_sync_inv codes schedule s :
  run (init codes) schedule = Some s -> sync_inv s.
Proof. apply run_invariant; [apply sync_inv_step | apply sync_inv_init]. Qed.

Lemma run_codes_inv codes schedule s :
  run (init codes) schedule = Some s -> codes_inv codes s.
Proof.
  apply (run_invariant (codes_inv codes));
    [apply codes_inv_step | apply codes_inv_init].
Qed.

(** ** Every run of FetchFunds can be continued until it returns *)

Lemma sum_list_with_lookup {A : Type} (f : A -> nat) (l : list A) i x :
  l !! i = Some x -> f x <= sum_list_with f l.
Proof.
  revert i. induction l as [|a l IH]; intros [|i] H; simpl in *; try done.
  - injection H as ->. lia.
  - specialize (IH _ H). lia.
Qed.

Lemma sum_list_with_pos {A : Type} (f : A -> nat) (l : list A) :
  sum_list_with f l <> 0 -> exists i x, l !! i = Some x /\ f x <> 0.
Proof.
  induction l as [|a l IH]; simpl; intros H; [done|].
  destruct (decide (f a = 0)) as [Ha|Ha].
  - destruct IH as (i & x & Hx & Hfx); [lia|]. by exists (S i), x.
  - by exists 0, a.
Qed.

Lemma pending_le_alive w : pending w <= alive w.
Proof. unfold pending, alive. destruct (wpc w); lia. Qed.

(** A worker that has not called [wg.Done] keeps the channels open and
    the caller in its range loop. *)
Lemma pending_worker_open s i w :
  sync_inv s -> workers s !! i = Some w -> pending w = 1 ->
  (exists n, wg s = S n) /\ foundCh_closed s = false /\
  errCh_closed s = false /\ main s = MRange.
Proof.
  intros (Hg & Hw & Hc & Hm) Hi Hp.
  pose proof (sum_list_with_lookup pending _ _ _ Hi) as Hle.
  unfold wg_inv in Hw. unfold closer_inv in Hc. unfold main_inv in Hm.
  assert (Hwg : wg s <> 0) by lia.
  destruct (closer s); try (exfalso; lia).
  destruct Hc as [Hf He].
  repeat split; try done.
  - destruct (wg s) as [|n]; [done|]. by exists n.
  - destruct (main s); congruence.
Qed.

(** No goroutine of FetchFunds panics. *)
Lemma sync_inv_no_panic s : sync_inv s -> ~ panics s.
Proof.
  intros Hinv Hpanic.
  destruct Hpanic as [(i & w & err & Hi & Hpc & Hc)
                     |[(i & w & fund & Hi & Hpc & Hc)
                     |[(i & w & o & Hi & Hpc & Hc)
                     |[[Hpc Hc]|[Hpc Hc]]]]].
  - destruct (pending_worker_open s i w Hinv Hi) as (_ & _ & He & _);
      [unfold pending; by rewrite Hpc | congruence].
  - destruct (pending_worker_open s i w Hinv Hi) as (_ & Hf & _);
      [unfold pending; by rewrite Hpc | congruence].
  - destruct (pending_worker_open s i w Hinv Hi) as ((n & Hn) & _);
      [unfold pending; by rewrite Hpc | congruence].
  - destruct Hinv as (_ & _ & Hcl & _). unfold closer_inv in Hcl.
    rewrite Hpc in Hcl. destruct Hcl as (_ & ? & _). congruence.
  - destruct Hinv as (_ & _ & Hcl & _). unfold closer_inv in Hcl.
    rewrite Hpc in Hcl. destruct Hcl as (_ & _ & ?). congruence.
Qed.

Lemma progress s :
  sync_inv s -> returned s = None -> exists a s', step s a = Some s'.
Proof.
  intros Hinv Hret.
  destruct (decide (sum_list_with alive (workers s) = 0)) as [Hnone|Hsome].
  - (* every worker has finished *)
    destruct Hinv as ((Hl & _) & Hw & Hc & Hm).
    unfold wg_inv in Hw. unfold closer_inv in Hc. unfold main_inv in Hm.
    pose proof (sum_list_with_le pending alive (workers s) pending_le_alive).
    destruct (dispatcher s) as [[|code rest]|code rest] eqn:Hd; simpl in *.
    + assert (Hwg : wg s = 0) by lia.
      destruct (closer s) eqn:Hcl.
      * exists ActCloser. simpl. unfold stepCloser. rewrite Hcl, Hwg. eauto.
      * exists ActCloser. simpl. unfold stepCloser.
        destruct Hc as (_ & -> & _). rewrite Hcl. eauto.
      * exists ActCloser. simpl. unfold stepCloser.
        destruct Hc as (_ & _ & ->). rewrite Hcl. eauto.
      * destruct Hc as (_ & Hf & He).
        exists ActMain. simpl. unfold stepMain. unfold returned in Hret.
        destruct (main s); try done; rewrite ?Hf, ?He; eauto.
        destruct (errCh s); eauto.
    + exists ActDispatcher. simpl. unfold stepDispatcher. rewrite Hd.
      replace (limiter s) with 0 by lia. simpl. eauto.
    + exists ActDispatcher. simpl. unfold stepDispatcher. rewrite Hd. eauto.
  - (* some worker has not finished *)
    destruct (sum_list_with_pos alive _ Hsome) as (i & w & Hi & Halive).
    pose proof (pending_worker_open s i w Hinv Hi) as Hopen.
    pose proof (sum_list_with_lookup alive _ _ _ Hi) as Hle.
    destruct Hinv as ((Hl & _) & _).
    unfold alive, pending in *.
    destruct (wpc w) as [| |err|fund|o|o|o] eqn:Hpc; try done.
    + exists (ActWorker i). simpl. unfold stepWorker. rewrite Hi, Hpc.
      destruct (wcode w =? "")%string; eauto.
    + exists (ActFetchReturn i (Error (ErrLib ""))). simpl.
      unfold stepFetchReturn. rewrite Hi, Hpc. eauto.
    + destruct Hopen as (_ & _ & He & _); [done|].
      exists (ActWorker i). simpl. unfold stepWorker. rewrite Hi, Hpc, He.
      destruct (errCh s); eauto.
    + destruct Hopen as (_ & Hf & _ & Hm); [done|].
      exists (ActWorker i). simpl. unfold stepWorker. rewrite Hi, Hpc, Hf, Hm.
      eauto.
    + destruct Hopen as ((n & Hn) & _); [done|].
      exists (ActWorker i). simpl. unfold stepWorker. rewrite Hi, Hpc, Hn.
      eauto.
    + exists (ActWorker i). simpl. unfold stepWorker. rewrite Hi, Hpc.
      destruct (limiter s) as [|n]; [lia|]. eauto.
Qed.

(** Every step uses up at least one of the remaining operations. *)
Lemma steps_left_step s a s' :
  step s a = Some s' -> steps_left s' < steps_left s.
Proof.
  intros H. unfold steps_left.
  step_cases H; simpl; try rewrite sum_list_with_app; simpl;
    try weigh worker_steps; arith.
Qed.

Lemma run_app s schedule1 schedule2 s1 :
  run s schedule1 = Some s1 ->
  run s (schedule1 ++ schedule2) = run s1 schedule2.
Proof.
  revert s. induction schedule1 as [|a rest IH]; intros s H; simpl in *.
  - by injection H as ->.
  - destruct (step s a); [|done]. by apply IH.
Qed.


(** The length of a schedule that can be performed is bounded: no run
    goes on for ever. *)
Lemma run_length s schedule s' :
  run s schedule = Some s' -> length schedule + steps_left s' <= steps_left s.
Proof.
  revert s. induction schedule as [|a rest IH]; intros s H; simpl in *.
  - injection H as ->. lia.
  - destruct (step s a) as [s1|] eqn:Ha; [|done].
    specialize (IH _ H). pose proof (steps_left_step _ _ _ Ha). lia.
Qed.

(** X3: in no state that a schedule reaches does a goroutine of
    FetchFunds panic: no worker sends on a closed channel or calls
    [wg.Done] on a zero counter, and no channel is closed twice. *)
Lemma FetchFunds_no_panic codes schedule s :
  run (init codes) schedule = Some s -> ~ panics s.
Proof. intros Hrun. by apply sync_inv_no_panic, (run_sync_inv codes schedule). Qed.


(** ** Runs of FetchFunds: errors, records and requests *)

Lemma omap_insert_same {A B : Type} (g : A -> option B) (l : list A) i x y :
  l !! i = Some x -> g y = g x -> omap g (<[i:=y]> l) = omap g l.
Proof.
  revert i. induction l as [|a l IH]; intros [|i] H Hg; try done.
  - injection H as ->. cbn. by rewrite Hg.
  - cbn. specialize (IH _ H Hg). destruct (g a); [f_equal|]; exact IH.
Qed.

Lemma omap_insert_new {A B : Type} (g : A -> option B) (l : list A) i x y b :
  l !! i = Some x -> g x = None -> g y = Some b ->
  omap g (<[i:=y]> l) ≡ₚ b :: omap g l.
Proof.
  revert i. induction l as [|a l IH]; intros [|i] H Hx Hy; try done.
  - injection H as ->. cbn. by rewrite Hx, Hy.
  - cbn. specialize (IH _ H Hx Hy).
    destruct (g a) as [c|]; [|exact IH].
    etransitivity; [apply perm_skip, IH|apply perm_swap].
Qed.

Lemma published_snoc h ev :
  published (h ++ [ev]) =
  published h ++ match ev with EvPublish _ err _ => [err] | _ => [] end.
Proof. unfold published. rewrite omap_app. simpl. by destruct ev. Qed.

Lemma stored_snoc h ev :
  stored (h ++ [ev]) =
  stored h ++ match ev with EvPublish _ err true => [err] | _ => [] end.
Proof.
  unfold stored. rewrite omap_app. simpl. by destruct ev as [|? ? []].
Qed.

Lemma requested_snoc h ev :
  requested (h ++ [ev]) =
  requested h ++ match ev with EvRequest _ code => [code] | _ => [] end.
Proof. unfold requested. rewrite omap_app. simpl. by destruct ev. Qed.

Lemma err_inv_init codes : err_inv (init codes).
Proof. done. Qed.

Lemma err_inv_step s a s' :
  sync_inv s -> err_inv s -> step s a = Some s' -> err_inv s'.
Proof.
  intros Hsync Herr H.
  assert (Hopen : forall i w, workers s !! i = Some w -> pending w = 1 ->
                              main s = MRange).
  { intros i w Hi Hp. by destruct (pending_worker_open s i w Hsync Hi Hp) as (_ & _ & _ & ?). }
  clear Hsync.
  step_cases H; destruct Herr as [Hst He]; split; simpl;
    rewrite ?published_snoc, ?stored_snoc, ?app_nil_r; try done;
    try (erewrite Hopen in * by (eassumption || done));
    repeat match goal with
           | Hm : main _ = _ |- _ => rewrite Hm in He
           end; simpl in *; try done.
  all: destruct (published (history s)); simpl in *; rewrite ?Hst;
    try done; congruence.
Qed.

Lemma failures_inv_init codes : failures_inv (init codes).
Proof. unfold failures_inv. reflexivity. Qed.

Lemma failures_inv_step s a s' :
  failures_inv s -> step s a = Some s' -> failures_inv s'.
Proof.
  intros Hf H. unfold failures_inv, failures in *.
  step_cases H; simpl; rewrite ?published_snoc, ?app_nil_r, ?omap_app; simpl;
    rewrite ?app_nil_r;
    try (erewrite omap_insert_same by (eassumption || done); done);
    try done.
  all: erewrite omap_insert_new by (eassumption || done);
    by rewrite Hf, Permutation_app_comm.
Qed.

(** ** sort.Slice *)

Lemma chain_adjacent {A : Type} (R : A -> A -> Prop) (l : list A) :
  chain R l -> adjacent R l.
Proof.
  induction l as [|x l IH]; intros Hc i a b Ha Hb; [done|].
  destruct Hc as [Hhd Htl]. destruct i as [|i]; simpl in *.
  - destruct l as [|y l]; [done|]. simpl in *. by simplify_eq.
  - by apply (IH Htl i).
Qed.

Lemma chain_snoc {A : Type} (R : A -> A -> Prop) (l : list A) x :
  chain R l ->
  match last l with Some y => R y x | None => True end ->
  chain R (l ++ [x]).
Proof.
  induction l as [|a l IH]; intros Hc Hlast; simpl; [done|].
  destruct Hc as [Hhd Htl]. split.
  - destruct l as [|b l]; simpl in *; done.
  - apply IH; [done|]. by destruct l.
Qed.

Lemma chain_rev {A : Type} (R : A -> A -> Prop) (l : list A) :
  chain R l -> chain (fun a b => R b a) (rev l).
Proof.
  induction l as [|a l IH]; intros Hc; simpl; [done|].
  destruct Hc as [Hhd Htl]. apply chain_snoc; [by apply IH|].
  destruct l as [|b l]; simpl in *; [done|].
  by rewrite last_snoc.
Qed.

Section SortFacts.
Context {A : Type}.
Variable less : A -> A -> bool.
Hypothesis less_asym : forall a b, less a b = true -> less b a = false.

Lemma insertLeft_perm x (sorted_rev : list A) :
  insertLeft less x sorted_rev ≡ₚ x :: sorted_rev.
Proof.
  induction sorted_rev as [|y rest IH]; simpl; [done|].
  destruct (less x y); [|done]. rewrite IH. apply perm_swap.
Qed.

Lemma insertionSort_perm (l : list A) : insertionSort less l ≡ₚ l.
Proof.
  unfold insertionSort.
  enough (H : forall acc,
    fold_left (fun sorted_rev x => insertLeft less x sorted_rev) l acc ≡ₚ l ++ acc).
  { rewrite <- Permutation_rev, H. by rewrite app_nil_r. }
  induction l as [|x l IH]; intros acc; simpl; [done|].
  rewrite IH, insertLeft_perm. by rewrite Permutation_middle.
Qed.

(** While the elements at the left are in order from right to left,
    they stay so when one more element is moved into them. *)
Lemma insertLeft_chain x (sorted_rev : list A) :
  chain (fun a b => less a b = false) sorted_rev ->
  chain (fun a b => less a b = false) (insertLeft less x sorted_rev).
Proof.
  induction sorted_rev as [|y rest IH]; intros Hc; simpl; [done|].
  destruct (less x y) eqn:Hxy; [|done].
  destruct Hc as [Hhd Htl]. split; [|by apply IH].
  destruct rest as [|z rest]; simpl; [by apply less_asym|].
  destruct (less x z); [done|by apply less_asym].
Qed.

(** After [sort.Slice] no element is less than the one before it. *)
Lemma sortSlice_adjacent (l : list A) :
  adjacent (fun a b => less b a = false) (sortSlice less l).
Proof.
  apply chain_adjacent. unfold sortSlice, insertionSort.
  apply (chain_rev (fun a b => less a b = false)).
  enough (H : forall acc,
    chain (fun a b => less a b = false) acc ->
    chain (fun a b => less a b = false)
      (fold_left (fun sorted_rev x => insertLeft less x sorted_rev) l acc))
    by (by apply H).
  induction l as [|x l IH]; intros acc Hacc; simpl; [done|].
  by apply IH, insertLeft_chain.
Qed.

End SortFacts.

Lemma lessFund_asym a b : lessFund a b = true -> lessFund b a = false.
Proof. apply lt_asym. Qed.

Lemma sortSlice_keySorted (l : list Fund) : keySorted (sortSlice lessFund l).
Proof. apply sortSlice_adjacent, lessFund_asym. Qed.

(** ** Runs of FetchFunds: the records and the requests *)

Lemma funds_inv_init codes : funds_inv (init codes).
Proof. unfold funds_inv. simpl. reflexivity. Qed.

Lemma funds_inv_step s a s' :
  funds_inv s -> step s a = Some s' -> funds_inv s'.
Proof.
  intros Hf H.
  step_cases H; unfold funds_inv, successes in *; simpl;
    repeat match goal with
           | Hm : main _ = _ |- _ => rewrite Hm in *
           end;
    try (erewrite omap_insert_same by (eassumption || done));
    try done.
  - (* the worker of the next identifier starts *)
    rewrite omap_app. simpl. rewrite app_nil_r.
    by destruct (main s).
  - (* a record is received by the range loop *)
    erewrite omap_insert_new by (eassumption || done).
    by rewrite <- Hf, Permutation_app_comm.
  - (* sort.Slice *)
    split; [|apply sortSlice_keySorted].
    unfold sortSlice. by rewrite insertionSort_perm.
Qed.

Lemma request_inv_init codes : request_inv (init codes).
Proof. split; [apply Forall_nil_2|]. unfold requested. reflexivity. Qed.

Lemma request_inv_step s a s' :
  request_inv s -> step s a = Some s' -> request_inv s'.
Proof.
  intros [Hok Hreq] H.
  assert (Hlook : forall i w, workers s !! i = Some w -> worker_ok w).
  { intros i w Hi. by eapply Forall_lookup_1. }
  step_cases H; unfold request_inv in *; simpl;
    rewrite ?requested_snoc, ?app_nil_r; try done;
    try match goal with
        | Hw : workers _ !! _ = Some _ |- _ =>
            pose proof (Hlook _ _ Hw) as Hw_ok; unfold worker_ok in Hw_ok;
            simpl in Hw_ok
        end;
    (split;
     [first [ apply Forall_insert; [done|]
            | apply Forall_app; split; [done|apply Forall_singleton] ];
      unfold worker_ok; simpl
     | try (erewrite omap_insert_same by (eassumption || done); done) ]);
    try done.
  all: try (by apply String.eqb_eq).
  all: try (by apply String.eqb_neq).
  all: try (by destruct o).
  - rewrite omap_app. simpl. by rewrite app_nil_r.
  - erewrite omap_insert_new by (eassumption || done).
    by rewrite Hreq, Permutation_app_comm.
Qed.

Lemma run_err_inv codes schedule s :
  run (init codes) schedule = Some s -> err_inv s.
Proof.
  intros H.
  enough (Hboth : sync_inv s /\ err_inv s) by tauto.
  revert H. apply (run_invariant (fun s => sync_inv s /\ err_inv s)).
  - intros s1 a s2 [Hs He] Hstep.
    split; [by eapply sync_inv_step | by eapply err_inv_step].
  - split; [apply sync_inv_init | apply err_inv_init].
Qed.

Lemma run_failures_inv codes schedule s :
  run (init codes) schedule = Some s -> failures_inv s.
Proof.
  apply run_invariant; [apply failures_inv_step | apply failures_inv_init].
Qed.

Lemma run_funds_inv codes schedule s :
  run (init codes) schedule = Some s -> funds_inv s.
Proof.
  apply run_invariant; [apply funds_inv_step | apply funds_inv_init].
Qed.

Lemma run_request_inv codes schedule s :
  run (init codes) schedule = Some s -> request_inv s.
Proof.
  apply run_invariant; [apply request_inv_step | apply request_inv_init].
Qed.

(** ** FetchFunds: what a run returns *)

Lemma returned_complete codes s :
  sync_inv s -> codes_inv codes s -> returned s <> None -> complete codes s.
Proof.
  intros (_ & Hw & Hc & Hm) Hcodes Hret.
  unfold wg_inv in Hw. unfold closer_inv in Hc. unfold main_inv in Hm.
  unfold codes_inv in Hcodes. unfold returned in Hret.
  assert (Hclosed : foundCh_closed s = true) by (by destruct (main s)).
  assert (Hwg : wg s = 0).
  { destruct (closer s); destruct Hc as (? & ?); [congruence|tauto..]. }
  assert (Htodo : todo (dispatcher s) = []).
  { apply length_zero_iff_nil. lia. }
  split.
  - by rewrite Htodo, app_nil_r in Hcodes.
  - apply Forall_forall. intros w Hin.
    apply (sum_list_with_zero pending (workers s)); [lia|done].
Qed.

Lemma run_complete codes schedule s :
  run (init codes) schedule = Some s -> returned s <> None -> complete codes s.
Proof.
  intros Hrun. apply returned_complete;
    [by eapply run_sync_inv | by eapply run_codes_inv].
Qed.

(** The error that is returned is the first one offered to [errCh];
    no other error is ever stored in its buffer. *)
Lemma error_is_first_published codes schedule s fs err :
  run (init codes) schedule = Some s -> returned s = Some (fs, err) ->
  err = head (published (history s)) /\
  stored (history s) = take 1 (published (history s)) /\
  published (history s) ≡ₚ failures s.
Proof.
  intros Hrun Hret.
  destruct (run_err_inv _ _ _ Hrun) as [Hst He].
  pose proof (run_failures_inv _ _ _ Hrun) as Hf.
  unfold returned in Hret. destruct (main s); try done.
  by simplify_eq.
Qed.

(** The records that are returned are the ones that were fetched, in
    the order of the sort key. *)
Lemma records_are_successes codes schedule s fs err :
  run (init codes) schedule = Some s -> returned s = Some (fs, err) ->
  fs ≡ₚ successes s /\ keySorted fs.
Proof.
  intros Hrun Hret. pose proof (run_funds_inv _ _ _ Hrun) as Hf.
  unfold funds_inv, returned in *. destruct (main s); try done.
  by simplify_eq.
Qed.





(** ** Runs of FetchFunds: the schedule and the workers *)

(** The run of a schedule with one more action at its end. *)
Lemma run_snoc s schedule a :
  run s (schedule ++ [a]) = run s schedule ≫= fun s1 => step s1 a.
Proof.
  revert s. induction schedule as [|b rest IH]; intros s; simpl.
  - by destruct (step s a).
  - destruct (step s b); [apply IH|done].
Qed.

(** A property of a schedule and the state that it reaches holds for
    every run when the steps keep it. *)
Lemma run_trace_invariant codes (P : list Action -> State -> Prop) :
  P [] (init codes) ->
  (forall schedule s a s',
     run (init codes) schedule = Some s -> P schedule s ->
     step s a = Some s' -> P (schedule ++ [a]) s') ->
  forall schedule s, run (init codes) schedule = Some s -> P schedule s.
Proof.
  intros Hinit Hstep schedule.
  induction schedule as [|a schedule IH] using rev_ind; intros s Hrun.
  - simpl in Hrun. by injection Hrun as <-.
  - rewrite run_snoc in Hrun.
    destruct (run (init codes) schedule) as [s1|] eqn:H1; [|done].
    simpl in Hrun. eauto.
Qed.

Lemma fetchResults_snoc i schedule a :
  fetchResults i (schedule ++ [a]) =
  fetchResults i schedule ++
  match a with
  | ActFetchReturn j r => if Nat.eqb j i then [r] else []
  | _ => []
  end.
Proof.
  unfold fetchResults. rewrite omap_app. f_equal.
  destruct a as [| |j r| |]; try done. cbn. by destruct (Nat.eqb j i).
Qed.

Lemma fetchedRecords_snoc schedule a :
  fetchedRecords (schedule ++ [a]) =
  fetchedRecords schedule ++
  match a with ActFetchReturn _ (Ok fund) => [fund] | _ => [] end.
Proof.
  unfold fetchedRecords. rewrite omap_app. f_equal.
  by destruct a as [| |j [fund|err]| |].
Qed.

Lemma failedFetches_snoc schedule a :
  failedFetches (schedule ++ [a]) =
  failedFetches schedule ++
  match a with ActFetchReturn i (Error err) => [(i, err)] | _ => [] end.
Proof.
  unfold failedFetches. rewrite omap_app. f_equal.
  by destruct a as [| |j [fund|err]| |].
Qed.

Lemma offers_snoc schedule a :
  offers (schedule ++ [a]) = offerStep (offers schedule) a.
Proof. unfold offers. by rewrite fold_left_app. Qed.

(** The steps keep the three parts of [trace_inv]. *)
Lemma records_trace_step schedule s a s' :
  records_trace schedule s -> step s a = Some s' ->
  records_trace (schedule ++ [a]) s'.
Proof.
  intros Hr H. unfold records_trace in *. rewrite fetchedRecords_snoc.
  step_cases H; simpl; rewrite ?app_nil_r, ?omap_app; simpl;
    rewrite ?app_nil_r;
    try (erewrite omap_insert_same by (eassumption || done); done);
    try done.
  erewrite omap_insert_new by (eassumption || done).
  by rewrite Hr, Permutation_app_comm.
Qed.

Lemma workers_trace_step schedule s a s' :
  workers_trace schedule s -> step s a = Some s' ->
  workers_trace (schedule ++ [a]) s'.
Proof.
  intros Hw H.
  step_cases H; intros j; specialize (Hw j); rewrite fetchResults_snoc;
    simpl; rewrite ?app_nil_r; try done.
  all: try match goal with
      | Hi : workers _ !! ?i = Some _ |- _ =>
          destruct (decide (j = i)) as [->|Hne];
          [ rewrite list_lookup_insert_eq by (by eapply lookup_lt_Some);
            rewrite Hi in Hw; unfold fetch_seen in *; simpl in *;
            rewrite ?Nat.eqb_refl
          | rewrite list_lookup_insert_ne by done;
            try (destruct (Nat.eqb_spec i j); [congruence|]);
            rewrite ?app_nil_r ]
      end.
  all: try done.
  - (* the worker of the next identifier starts *)
    destruct (decide (j < length (workers s))) as [Hlt|Hge].
    + by rewrite lookup_app_l.
    + assert (Hnone : workers s !! j = None) by (apply lookup_ge_None; lia).
      rewrite Hnone in Hw.
      destruct ((workers s ++ [mkWorker code WStart]) !! j) as [w|] eqn:Hj;
        [|done].
      apply lookup_snoc_Some in Hj as [[Hlt _]|[_ <-]]; [lia|done].
  - (* the fetch returns a record *)
    by rewrite Hw.
  - (* the fetch returns an error *)
    exists e. by rewrite Hw.
Qed.

(** Worker [i] runs the [i]-th identifier. *)
Lemma worker_code codes s i w :
  codes_inv codes s -> workers s !! i = Some w -> codes !! i = Some (wcode w).
Proof.
  intros Hc Hi. unfold codes_inv in Hc. rewrite <- Hc.
  rewrite lookup_app_l by (rewrite length_map; by eapply lookup_lt_Some).
  by rewrite list_lookup_fmap, Hi.
Qed.

Lemma offers_trace_step codes schedule s a s' :
  codes_inv codes s -> workers_trace schedule s ->
  offers_trace codes schedule s -> step s a = Some s' ->
  offers_trace codes (schedule ++ [a]) s'.
Proof.
  intros Hc Hw (Hp & Hwait & Hperm) H.
  assert (Hcode : forall i w, workers s !! i = Some w ->
                              codes !! i = Some (wcode w))
    by (intros; by eapply worker_code).
  assert (Htag : forall i c err,
            workers s !! i = Some (mkWorker c (WPublish err)) ->
            exists cause, err = ErrAnnot cause ("code:" +:+ c)).
  { intros i c err Hi. specialize (Hw i). rewrite Hi in Hw.
    destruct Hw as (cause & _ & ->). by exists cause. }
  assert (Hwaiting : forall i w, workers s !! i = Some w ->
                                 (offers schedule).2 !! i = waitingOf w).
  { intros i w Hi. by rewrite Hwait, Hi. }
  clear Hc Hw.
  step_cases H; unfold offers_trace;
    rewrite offers_snoc, failedFetches_snoc; simpl;
    rewrite ?published_snoc, ?app_nil_r.
  all: try match goal with
      | Hi : workers _ !! _ = Some (mkWorker _ (WPublish _)) |- _ =>
          destruct (Htag _ _ _ Hi) as [cause ->]
      end.
  all: try match goal with
      | Hi : workers _ !! _ = Some _ |- _ =>
          pose proof (Hwaiting _ _ Hi) as Hwi; pose proof (Hcode _ _ Hi) as Hci;
          unfold waitingOf in Hwi; simpl in Hwi, Hci; rewrite ?Hwi; simpl
      end.
  all: (split; [|split]).
  all: try done.
  all: try (rewrite map_app; simpl; unfold tagError; simpl; rewrite Hci;
            by rewrite Hp).
  all: try (intros j;
            match goal with
            | Hi : workers _ !! ?i = Some _ |- _ =>
                destruct (decide (j = i)) as [->|Hne];
                [ rewrite list_lookup_insert_eq by (by eapply lookup_lt_Some);
                  simpl; by rewrite ?lookup_delete_eq, ?lookup_insert_eq
                | rewrite list_lookup_insert_ne by done;
                  rewrite ?lookup_delete_ne, ?lookup_insert_ne by done;
                  apply Hwait ]
            end).
  - (* the worker of the next identifier starts *)
    intros j. rewrite Hwait.
    destruct (decide (j < length (workers s))) as [Hlt|Hge].
    + by rewrite lookup_app_l.
    + assert (Hnone : workers s !! j = None) by (apply lookup_ge_None; lia).
      rewrite Hnone.
      destruct ((workers s ++ [mkWorker code WStart]) !! j) as [w|] eqn:Hj;
        [|done].
      apply lookup_snoc_Some in Hj as [[Hlt _]|[_ <-]]; [lia|done].
  - (* the error is stored in errCh *)
    rewrite Hperm, <- app_assoc. apply Permutation_app_head.
    symmetry. by apply map_to_list_delete.
  - (* the error is dropped *)
    rewrite Hperm, <- app_assoc. apply Permutation_app_head.
    symmetry. by apply map_to_list_delete.
  - (* the fetch returns an error *)
    rewrite map_to_list_insert by done.
    rewrite Hperm, <- app_assoc. apply Permutation_app_head.
    apply Permutation_app_comm.
Qed.

Lemma trace_inv_init codes : trace_inv codes [] (init codes).
Proof.
  split; [|split; [|split; [|split]]].
  - unfold records_trace. reflexivity.
  - by intros i.
  - done.
  - by intros i.
  - change (offers []) with (@nil (nat * Err), (∅ : gmap nat Err)).
    cbn [fst snd]. by rewrite map_to_list_empty.
Qed.

(** In every run the workers are where the results of the fetches of
    the schedule put them. *)
Lemma run_trace_inv codes schedule s :
  run (init codes) schedule = Some s -> trace_inv codes schedule s.
Proof.
  apply run_trace_invariant; [apply trace_inv_init|].
  clear schedule s. intros schedule s a s' Hrun (Hr & Hw & Ho) Hstep.
  split; [|split].
  - by eapply records_trace_step.
  - by eapply workers_trace_step.
  - eapply offers_trace_step; eauto using run_codes_inv.
Qed.

(** *** The fetches and the identifiers *)

Lemma fetchResults_elem i r schedule :
  r ∈ fetchResults i schedule <-> ActFetchReturn i r ∈ schedule.
Proof.
  unfold fetchResults. rewrite list_elem_of_omap. split.
  - intros (a & Ha & Hr). destruct a as [| |j r'| |]; try done.
    destruct (Nat.eqb_spec j i); by simplify_eq.
  - intros Ha. exists (ActFetchReturn i r). split; [done|].
    by rewrite Nat.eqb_refl.
Qed.

Lemma failedFetches_elem i err schedule :
  (i, err) ∈ failedFetches schedule <->
  ActFetchReturn i (Error err) ∈ schedule.
Proof.
  unfold failedFetches. rewrite list_elem_of_omap. split.
  - intros (a & Ha & Hr). destruct a as [| |j [fund|e]| |]; by simplify_eq.
  - intros Ha. by exists (ActFetchReturn i (Error err)).
Qed.


(** A call of FetchFund that returns is the call of a worker, for an
    identifier of the list that is not empty. *)
Lemma fetch_identifier codes schedule s i r :
  run (init codes) schedule = Some s ->
  ActFetchReturn i r ∈ schedule ->
  exists code, codes !! i = Some code /\ code <> "".
Proof.
  intros Hrun Hin. apply fetchResults_elem in Hin.
  destruct (run_trace_inv _ _ _ Hrun) as (_ & Hw & _).
  destruct (run_request_inv _ _ _ Hrun) as [Hok _].
  specialize (Hw i).
  destruct (workers s !! i) as [w|] eqn:Hi;
    [|rewrite Hw in Hin; by apply elem_of_nil in Hin].
  exists (wcode w).
  split; [by eapply worker_code, Hi; eapply run_codes_inv|].
  pose proof (Forall_lookup_1 _ _ _ _ Hok Hi) as Hwok.
  destruct w as [code pc]. unfold fetch_seen, worker_ok in *. simpl in *.
  destruct pc as [| | | |o|o|o]; try done;
    try (rewrite Hw in Hin; by apply elem_of_nil in Hin);
    destruct o; try done; rewrite Hw in Hin; by apply elem_of_nil in Hin.
Qed.

(** When FetchFunds has returned, every worker has run its deferred
    call of [wg.Done]: no worker holds a record or an error. *)
Lemma returned_workers codes schedule s i w :
  run (init codes) schedule = Some s -> returned s <> None ->
  workers s !! i = Some w ->
  pending w = 0 /\ worker_ok w /\ codes !! i = Some (wcode w) /\
  fetch_seen w (fetchResults i schedule) /\
  got w = fetched w /\ waitingOf w = None.
Proof.
  intros Hrun Hret Hi.
  destruct (run_complete _ _ _ Hrun Hret) as [_ Hdone].
  destruct (run_request_inv _ _ _ Hrun) as [Hok _].
  destruct (run_trace_inv _ _ _ Hrun) as (_ & Hw & _).
  pose proof (Forall_lookup_1 _ _ _ _ Hdone Hi) as Hp. simpl in Hp.
  specialize (Hw i). rewrite Hi in Hw.
  split; [done|]. split; [by eapply Forall_lookup_1|].
  split; [by eapply worker_code, Hi; eapply run_codes_inv|].
  split; [done|].
  unfold pending, got, waitingOf in *. by destruct (wpc w).
Qed.



(** When FetchFunds has returned, every failed fetch has come to
    errCh; the error that is returned is the tagged error of the first
    one, and no other error was stored. *)
Lemma returned_offers codes schedule s fs err :
  run (init codes) schedule = Some s -> returned s = Some (fs, err) ->
  offered schedule ≡ₚ failedFetches schedule /\
  published (history s) = map (tagError codes) (offered schedule) /\
  stored (history s) = take 1 (map (tagError codes) (offered schedule)) /\
  err = head (map (tagError codes) (offered schedule)).
Proof.
  intros Hrun Hret.
  destruct (error_is_first_published _ _ _ _ _ Hrun Hret) as (He & Hst & _).
  destruct (run_trace_inv _ _ _ Hrun) as (_ & _ & Hp & Hwait & Hperm).
  assert (Hnone : (offers schedule).2 = ∅).
  { apply map_empty. intros i. rewrite Hwait.
    destruct (workers s !! i) as [w|] eqn:Hi; [|done]. simpl.
    by destruct (returned_workers codes schedule s i w Hrun)
      as (_ & _ & _ & _ & _ & ?); [by rewrite Hret|done|]. }
  rewrite Hnone, map_to_list_empty, app_nil_r in Hperm.
  unfold offered. rewrite <- Hp. by repeat split.
Qed.

(** When FetchFunds has returned, the fetch of every identifier that is
    not empty has returned once, and no fetch was made for an empty
    identifier. *)
Lemma returned_fetches codes schedule s i code :
  run (init codes) schedule = Some s -> returned s <> None ->
  codes !! i = Some code ->
  (code = "" /\ fetchResults i schedule = []) \/
  (code <> "" /\ exists r, fetchResults i schedule = [r]).
Proof.
  intros Hrun Hret Hc.
  destruct (run_complete _ _ _ Hrun Hret) as [Hcodes _].
  rewrite <- Hcodes, list_lookup_fmap in Hc.
  destruct (workers s !! i) as [w|] eqn:Hi; [|done]. simpl in Hc.
  injection Hc as <-.
  destruct (returned_workers codes schedule s i w Hrun Hret Hi)
    as (Hp & Hok & _ & Hseen & _).
  destruct w as [code pc]. unfold pending, worker_ok, fetch_seen in *.
  simpl in *.
  destruct pc as [| | | | |o|o]; try done; destruct o; eauto;
    destruct Hseen as (cause & -> & _); eauto.
Qed.

(** ** FetchFunds: the claims *)

(** C1, at the failing input.  The upstream reports a fall of 1e-17
    percent for the first identifier and of 2e-17 percent for the
    second, and the records arrive in this order.  Both sort keys
    [Gszzl+1] round to 1, [sort.Slice] leaves the records as they are,
    and FetchFunds returns the smaller fall before the larger one: the
    result is not in ascending order of the growth. *)
Theorem FetchFunds_tie_not_sorted :
  exists s first second,
    run (init tie_codes) tie_schedule = Some s /\
    returned s = Some ([first; second], None) /\
    FundCode first = "000001" /\ FundCode second = "000002" /\
    add (Gszzl first) one = one /\ add (Gszzl second) one = one /\
    lt (Gszzl second) (Gszzl first) = true /\
    le (Gszzl first) (Gszzl second) = false /\
    ~ growthSorted [first; second].
Proof.
  eexists _, _, _.
  split; [vm_compute; reflexivity|].
  split; [reflexivity|].
  repeat (split; [vm_compute; reflexivity|]).
  intros Hsorted.
  specialize (Hsorted 0 _ _ eq_refl eq_refl).
  vm_compute in Hsorted. discriminate.
Qed.

(** X11: what does hold for every run that returns at most 12
    records, the slices on which [sort.Slice] runs its insertion sort:
    in the sequence that FetchFunds returns, no record has a sort key
    [Gszzl+1] below the one of the record before it. *)
Lemma FetchFunds_keySorted codes schedule s fs err :
  run (init codes) schedule = Some s -> returned s = Some (fs, err) ->
  length fs <= 12 ->
  forall i a b, fs !! i = Some a -> fs !! S i = Some b ->
    lt (add (Gszzl b) one) (add (Gszzl a) one) = false.
Proof.
  intros Hrun Hret _.
  destruct (records_are_successes _ _ _ _ _ Hrun Hret) as [_ Hsorted].
  exact Hsorted.
Qed.

(** C2: in every state that a schedule reaches from the start of
    FetchFunds, whatever the identifiers, at most 3 calls of FetchFund
    are in flight. *)
Theorem inflight_bounded codes schedule s :
  run (init codes) schedule = Some s -> inflight s <= 3.
Proof.
  intros Hrun.
  destruct (run_sync_inv _ _ _ Hrun) as ((Hl & Hc) & _).
  unfold inflight, concurrency in *.
  pose proof (sum_list_with_le
                (fun w => if is_fetching w then 1 else 0) alive (workers s)) as Hle.
  assert (Hpoint : forall w, (if is_fetching w then 1 else 0) <= alive w).
  { intros w. unfold is_fetching, alive. destruct (wpc w); lia. }
  specialize (Hle Hpoint). lia.
Qed.

Lemma inflight_bounded_witness :
  exists s,
    run (init full_codes) full_schedule = Some s /\
    inflight s = 3 /\ step s ActDispatcher = None /\ inflight s <= 3.
Proof.
  eexists. split; [vm_compute; reflexivity|].
  split; [reflexivity|]. split; [reflexivity|].
  apply (inflight_bounded full_codes full_schedule).
  vm_compute. reflexivity.
Defined.








(** * Further properties *)

(** ** FetchFund: the wrapper of the response *)

Lemma len_append (a b : string) : len (a +:+ b) = len a + len b.
Proof. unfold len. induction a as [|c a IH]; simpl; [done|]. by rewrite IH. Qed.

Lemma slice_to_append (a b : string) : slice_to (len a) (a +:+ b) = a.
Proof. unfold len. induction a as [|c a IH]; simpl; [by destruct b|]. by rewrite IH. Qed.

Lemma slice_from_append (a b : string) : slice_from (len a) (a +:+ b) = b.
Proof. unfold len. induction a as [|c a IH]; simpl; [by destruct b|]. done. Qed.

Lemma TrimPrefix_append (prefix s : string) :
  TrimPrefix (prefix +:+ s) prefix = s.
Proof.
  unfold TrimPrefix, HasPrefix.
  rewrite slice_to_append, String.eqb_refl, len_append, slice_from_append.
  by rewrite (proj2 (Nat.leb_le _ _)) by lia.
Qed.

Lemma TrimSuffix_append (s suffix : string) :
  TrimSuffix (s +:+ suffix) suffix = s.
Proof.
  unfold TrimSuffix, HasSuffix. rewrite len_append.
  replace (len s + len suffix - len suffix) with (len s) by lia.
  rewrite slice_from_append, slice_to_append, String.eqb_refl.
  by rewrite (proj2 (Nat.leb_le _ _)) by lia.
Qed.

(** X1: whatever text the upstream wraps in [jsonpgz(] and [);],
    FetchFund unmarshals exactly that text: the record if it
    unmarshals, and otherwise an error that quotes it. *)
Theorem FetchFund_strips_wrapper code payload :
  TrimSuffix (TrimPrefix (bodyPrefix +:+ payload +:+ bodySuffix) bodyPrefix)
    bodySuffix = payload /\
  FetchFund code (ResponseBody (bodyPrefix +:+ payload +:+ bodySuffix)) =
    match Unmarshal payload with
    | Ok fund => Ok fund
    | Error e => Error (Errorf (Some e) ("unmarshal, body:" +:+ payload))
    end.
Proof.
  assert (Hstrip :
    TrimSuffix (TrimPrefix (bodyPrefix +:+ payload +:+ bodySuffix) bodyPrefix)
      bodySuffix = payload)
    by (by rewrite TrimPrefix_append, TrimSuffix_append).
  split; [exact Hstrip|].
  unfold FetchFund. by rewrite Hstrip.
Qed.

(** X2: FetchFund does not ask for the wrapper: a body that neither
    starts with [jsonpgz(] nor ends with [);] gives the same result as
    the same text with the wrapper around it. *)
Theorem FetchFund_wrapper_optional code body :
  HasPrefix body bodyPrefix = false ->
  HasSuffix body bodySuffix = false ->
  FetchFund code (ResponseBody body) =
  FetchFund code (ResponseBody (bodyPrefix +:+ body +:+ bodySuffix)).
Proof.
  intros Hp Hs. unfold FetchFund at 2.
  rewrite TrimPrefix_append, TrimSuffix_append.
  unfold FetchFund, TrimPrefix. rewrite Hp. unfold TrimSuffix. by rewrite Hs.
Qed.

Lemma FetchFund_wrapper_optional_witness :
  FetchFund "180012" (ResponseBody cannedPayload) =
  FetchFund "180012" (ResponseBody (bodyPrefix +:+ cannedPayload +:+ bodySuffix)).
Proof.
  apply (FetchFund_wrapper_optional "180012" cannedPayload);
    vm_compute; reflexivity.
Defined.

(** ** FetchFunds: the goroutines *)

Lemma drained_inv_step s a s' :
  sync_inv s -> drained_inv s -> step s a = Some s' -> drained_inv s'.
Proof.
  intros Hsync Hd H.
  assert (Hopen : forall i w, workers s !! i = Some w -> pending w = 1 ->
                              main s = MRange).
  { intros i w Hi Hp.
    by destruct (pending_worker_open s i w Hsync Hi Hp) as (_ & _ & _ & ?). }
  clear Hsync.
  step_cases H; unfold drained_inv, returned in *; simpl in *; try done;
    try (erewrite Hopen in * by (eassumption || done); done);
    repeat match goal with
           | Hm : main _ = _ |- _ => rewrite Hm in *
           end; try done.
Qed.

Lemma run_drained_inv codes schedule s :
  run (init codes) schedule = Some s -> drained_inv s.
Proof.
  intros H.
  enough (Hboth : sync_inv s /\ drained_inv s) by tauto.
  revert H. apply (run_invariant (fun s => sync_inv s /\ drained_inv s)).
  - intros s1 a s2 [Hs Hd] Hstep.
    split; [by eapply sync_inv_step | by eapply drained_inv_step].
  - split; [apply sync_inv_init | done].
Qed.

(** When the caller has returned, the counter of the wait group is
    zero, the dispatcher has ended its loop and foundCh is closed. *)
Lemma returned_quiet s :
  sync_inv s -> returned s <> None ->
  wg s = 0 /\ dispatcher s = DAcquire [] /\
  sum_list_with pending (workers s) = 0 /\
  (closer s = CCloseErr \/ closer s = CExit).
Proof.
  intros (_ & Hw & Hc & Hm) Hret.
  unfold wg_inv in Hw. unfold closer_inv in Hc. unfold main_inv in Hm.
  unfold returned in Hret.
  assert (Hclosed : foundCh_closed s = true) by (by destruct (main s)).
  assert (Hwg : wg s = 0 /\ (closer s = CCloseErr \/ closer s = CExit)).
  { destruct (closer s).
    - destruct Hc as (? & ?). congruence.
    - destruct Hc as (? & ? & ?). congruence.
    - destruct Hc as (? & ?). auto.
    - destruct Hc as (? & ?). auto. }
  destruct Hwg as [Hwg Hcl].
  assert (Htodo : todo (dispatcher s) = []) by (apply length_zero_iff_nil; lia).
  repeat split; try done; try lia.
  destruct (dispatcher s) as [rest|code rest]; simpl in *; congruence.
Qed.

Lemma progress_all s :
  sync_inv s -> finished s \/ exists a s', step s a = Some s'.
Proof.
  intros Hinv.
  destruct (returned s) as [r|] eqn:Hret; [|right; by apply progress].
  destruct (returned_quiet s Hinv) as (Hwg & Hd & Hp & Hcl); [by rewrite Hret|].
  destruct (decide (sum_list_with alive (workers s) = 0)) as [Hnone|Hsome].
  - destruct Hcl as [Hcl|Hcl].
    + right. exists ActCloser. simpl. unfold stepCloser. rewrite Hcl.
      destruct Hinv as (_ & _ & Hc & _). unfold closer_inv in Hc.
      rewrite Hcl in Hc. destruct Hc as (_ & _ & ->). eauto.
    + left. repeat split; try done; [|by rewrite Hret].
      apply Forall_forall. intros w Hin.
      by apply (sum_list_with_zero alive (workers s)).
  - right.
    destruct (sum_list_with_pos alive _ Hsome) as (i & w & Hi & Halive).
    pose proof (sum_list_with_lookup alive _ _ _ Hi) as Hle.
    assert (Hpw : pending w = 0).
    { apply (sum_list_with_zero pending (workers s)); [done|].
      apply list_elem_of_lookup. eauto. }
    destruct Hinv as ((Hl & _) & _).
    unfold alive, pending in *.
    destruct (wpc w) as [| |err|fund|o|o|o] eqn:Hpc; try done.
    exists (ActWorker i). simpl. unfold stepWorker. rewrite Hi, Hpc.
    destruct (limiter s) as [|n]; [lia|]. eauto.
Qed.

Lemma finished_stuck s a : finished s -> step s a = None.
Proof.
  intros (Hd & Hw & Hc & Hret).
  assert (Hexit : forall i w, workers s !! i = Some w -> exists o, wpc w = WExit o).
  { intros i w Hi. pose proof (Forall_lookup_1 _ _ _ _ Hw Hi) as Ha.
    unfold alive in Ha. simpl in Ha. destruct (wpc w); try done. eauto. }
  destruct a as [|i|i r| |]; simpl.
  - unfold stepDispatcher. by rewrite Hd.
  - unfold stepWorker. destruct (workers s !! i) as [w|] eqn:Hi; [|done].
    destruct (Hexit i w Hi) as [o ->]. done.
  - unfold stepFetchReturn. destruct (workers s !! i) as [w|] eqn:Hi; [|done].
    destruct (Hexit i w Hi) as [o ->]. done.
  - unfold stepCloser. by rewrite Hc.
  - unfold stepMain. unfold returned in Hret. by destruct (main s).
Qed.

Lemma run_to_finish s :
  sync_inv s -> exists schedule s', run s schedule = Some s' /\ finished s'.
Proof.
  remember (steps_left s) as n eqn:Hn.
  revert s Hn. induction (lt_wf n) as [n _ IH]. intros s -> Hinv.
  destruct (progress_all s Hinv) as [Hfin|(a & s1 & Hstep)].
  - by exists [], s.
  - destruct (IH (steps_left s1) (steps_left_step _ _ _ Hstep) s1 eq_refl)
      as (rest & s' & Hrun & Hdone).
    { by eapply sync_inv_step. }
    exists (a :: rest), s'. simpl. by rewrite Hstep.
Qed.

(** X4: FetchFunds has no deadlock: in every state that a schedule
    reaches, either every goroutine has finished or some goroutine can
    perform its next operation. *)
Theorem FetchFunds_no_deadlock codes schedule s :
  run (init codes) schedule = Some s ->
  finished s \/ exists a s', step s a = Some s'.
Proof. intros Hrun. by apply progress_all, (run_sync_inv codes schedule). Qed.

Lemma FetchFunds_no_deadlock_witness :
  exists s,
    run (init full_codes) full_schedule = Some s /\
    (finished s \/ exists a s', step s a = Some s').
Proof.
  eexists. split; [vm_compute; reflexivity|].
  apply (FetchFunds_no_deadlock full_codes full_schedule).
  vm_compute. reflexivity.
Defined.

(** X5: a run of FetchFunds on [n] identifiers has at most [7n + 6]
    operations, whatever the schedule and the results of the fetches. *)
Theorem FetchFunds_bounded codes schedule s :
  run (init codes) schedule = Some s ->
  length schedule <= 7 * length codes + 6.
Proof.
  intros Hrun. pose proof (run_length _ _ _ Hrun) as Hlen.
  unfold steps_left in Hlen at 2. simpl in Hlen. lia.
Qed.

Lemma FetchFunds_bounded_witness :
  length demo_schedule <= 7 * length demo_codes + 6.
Proof.
  destruct (run (init demo_codes) demo_schedule) as [s|] eqn:Hrun.
  - exact (FetchFunds_bounded demo_codes demo_schedule s Hrun).
  - vm_compute in Hrun. discriminate.
Defined.

(** X6: FetchFunds leaves nothing behind: every run can go on until
    every goroutine has finished; then limiter and the buffer of errCh
    are empty, the counter of the wait group is zero, both channels are
    closed and no operation is left. *)
Theorem FetchFunds_no_leak codes schedule s :
  run (init codes) schedule = Some s ->
  exists rest s',
    run (init codes) (schedule ++ rest) = Some s' /\
    finished s' /\
    limiter s' = 0 /\ wg s' = 0 /\ errCh s' = None /\
    foundCh_closed s' = true /\ errCh_closed s' = true /\
    forall a, step s' a = None.
Proof.
  intros Hrun.
  destruct (run_to_finish s (run_sync_inv _ _ _ Hrun)) as (rest & s' & Hrest & Hfin).
  exists rest, s'.
  assert (Hrun' : run (init codes) (schedule ++ rest) = Some s')
    by (by rewrite (run_app _ _ _ _ Hrun)).
  pose proof (run_sync_inv _ _ _ Hrun') as Hinv.
  pose proof (run_drained_inv _ _ _ Hrun') as Hdrained.
  destruct Hfin as (Hd & Hw & Hc & Hret).
  destruct (returned_quiet s' Hinv Hret) as (Hwg & _).
  destruct Hinv as ((Hl & _) & _ & Hcl & _).
  unfold closer_inv in Hcl. rewrite Hc in Hcl. destruct Hcl as (_ & Hf & He).
  assert (Halive : sum_list_with alive (workers s') = 0).
  { clear -Hw. induction Hw as [|w ws Hw0 _ IH]; simpl; [done|]. lia. }
  split; [done|]. split; [done|].
  split; [rewrite Hl, Halive, Hd; done|].
  split; [done|]. split; [by apply Hdrained|].
  split; [done|]. split; [done|].
  intros a. by apply finished_stuck.
Qed.

Lemma FetchFunds_no_leak_witness :
  exists rest s',
    run (init demo_codes) (demo_schedule ++ rest) = Some s' /\ finished s'.
Proof.
  destruct (run (init demo_codes) demo_schedule) as [s|] eqn:Hrun;
    [|vm_compute in Hrun; discriminate].
  destruct (FetchFunds_no_leak demo_codes demo_schedule s Hrun)
    as (rest & s' & Hrun' & Hfin & _).
  by exists rest, s'.
Defined.

(** ** FetchFunds: the result *)

Lemma FetchFunds_no_panic_witness :
  exists s, run (init demo_codes) demo_schedule = Some s /\ ~ panics s.
Proof.
  eexists. split; [vm_compute; reflexivity|].
  apply (FetchFunds_no_panic demo_codes demo_schedule).
  vm_compute. reflexivity.
Defined.

Lemma FetchFunds_keySorted_witness :
  exists s first second,
    run (init tie_codes) tie_schedule = Some s /\
    returned s = Some ([first; second], None) /\
    lt (add (Gszzl second) one) (add (Gszzl first) one) = false.
Proof.
  eexists _, _, _. split; [vm_compute; reflexivity|]. split; [reflexivity|].
  eapply (FetchFunds_keySorted tie_codes tie_schedule _ _ None) with (i := 0);
    [vm_compute; reflexivity | reflexivity | simpl; lia
    | reflexivity | reflexivity].
Defined.

(** X7: the error that FetchFunds returns names its fund: it is the
    error with which the fetch of an identifier of the list has
    returned, annotated with [code:] and this identifier, which is not
    empty. *)
Theorem FetchFunds_error_tagged codes schedule s fs e :
  run (init codes) schedule = Some s ->
  returned s = Some (fs, Some e) ->
  exists i cause code,
    ActFetchReturn i (Error cause) ∈ schedule /\
    fetchResults i schedule = [Error cause] /\
    codes !! i = Some code /\ code <> "" /\
    e = ErrAnnot cause ("code:" +:+ code).
Proof.
  intros Hrun Hret.
  destruct (returned_offers _ _ _ _ _ Hrun Hret) as (Hperm & _ & _ & He).
  destruct (offered schedule) as [|[i cause] later] eqn:Hoff; [done|].
  simpl in He. injection He as ->.
  assert (Hin : ActFetchReturn i (Error cause) ∈ schedule).
  { apply failedFetches_elem. rewrite <- Hperm. apply list_elem_of_here. }
  destruct (fetch_identifier _ _ _ _ _ Hrun Hin) as (code & Hc & Hne).
  exists i, cause, code. split; [done|]. split.
  - destruct (returned_fetches codes schedule s i code Hrun)
      as [[? _]|[_ [r Hr]]]; [by rewrite Hret | done | done |].
    apply fetchResults_elem in Hin. rewrite Hr in Hin |- *.
    apply list_elem_of_singleton in Hin. by subst.
  - split; [done|]. split; [done|].
    unfold tagError. simpl. by rewrite Hc.
Qed.

Lemma FetchFunds_error_tagged_witness :
  exists s fs,
    run (init demo_codes) demo_schedule = Some s /\
    returned s = Some (fs, Some (ErrAnnot (ErrLib "timeout") "code:a")) /\
    exists i cause code,
      ActFetchReturn i (Error cause) ∈ demo_schedule /\
      demo_codes !! i = Some code /\
      ErrAnnot (ErrLib "timeout") "code:a" = ErrAnnot cause ("code:" +:+ code).
Proof.
  eexists _, _. split; [vm_compute; reflexivity|]. split; [reflexivity|].
  pose proof (fun s fs Hrun Hret =>
    FetchFunds_error_tagged demo_codes demo_schedule s fs
      (ErrAnnot (ErrLib "timeout") "code:a") Hrun Hret) as H.
  edestruct H as (i & cause & code & Hin & _ & Hc & _ & He);
    [vm_compute; reflexivity | reflexivity |].
  by exists i, cause, code.
Defined.







(** X10: at most 3 worker goroutines have been started and have not
    finished, counting the ones that wait to hand over a record or run
    their deferred calls; each of them, and the dispatcher between its
    send and the start of a worker, holds one value of limiter. *)
Theorem alive_workers_bounded codes schedule s :
  run (init codes) schedule = Some s ->
  alive_workers s <= 3 /\
  limiter s = alive_workers s + holding (dispatcher s).
Proof.
  intros Hrun. destruct (run_sync_inv _ _ _ Hrun) as ((Hl & Hc) & _).
  unfold alive_workers, concurrency in *. lia.
Qed.

Lemma alive_workers_bounded_witness :
  exists s,
    run (init full_codes) full_schedule = Some s /\
    alive_workers s = 3 /\ alive_workers s <= 3.
Proof.
  eexists. split; [vm_compute; reflexivity|]. split; [reflexivity|].
  apply (alive_workers_bounded full_codes full_schedule).
  vm_compute. reflexivity.
Defined.

(** ** The formatters: rows and title *)

Lemma fold_left_snoc_map {A B : Type} (f : B -> A) (l : list B) (acc : list A) :
  fold_left (fun elements x => elements ++ [f x]) l acc = acc ++ map f l.
Proof.
  revert acc. induction l as [|x l IH]; intros acc; simpl.
  - by rewrite app_nil_r.
  - by rewrite IH, <- app_assoc.
Qed.

Lemma html_open_nonempty :
  exists c rest, email_html_open = String c rest.
Proof. vm_compute. eauto. Qed.

Lemma GenerateEmailHTML_value FormatFloat funds minRise maxFall :
  GenerateEmailHTML FormatFloat funds minRise maxFall =
  match funds with
  | [] => ("", false)
  | _ :: _ =>
      (email_html_open +:+
       Join (map (fun fund =>
                    GenerateEmailHTML_element FormatFloat fund minRise maxFall)
               funds) nl +:+
       email_html_close, true)
  end.
Proof.
  unfold GenerateEmailHTML, GenerateEmailHTML_loop.
  rewrite fold_left_snoc_map. simpl. by destruct funds.
Qed.

(** X12: the email holds one table row for each record, in the order of
    the records, between the fixed head and foot of the page; without
    records it is the empty string. *)
Theorem GenerateEmailHTML_rows FormatFloat funds minRise maxFall :
  fst (GenerateEmailHTML FormatFloat funds minRise maxFall) =
  match funds with
  | [] => ""
  | _ :: _ =>
      email_html_open +:+
      Join (map (fun fund =>
                   GenerateEmailHTML_element FormatFloat fund minRise maxFall)
              funds) nl +:+
      email_html_close
  end.
Proof. rewrite GenerateEmailHTML_value. by destruct funds. Qed.

(** The status of a record does not depend on the count of falls, and
    the count goes up by one exactly for a growth below 0 and at most
    the maximum fall. *)
Lemma GenerateServerChanMessage_status_count fund minRise maxFall n :
  GenerateServerChanMessage_status fund minRise maxFall n =
  (GenerateEmailHTML_status fund minRise maxFall,
   n + (if lt (Gszzl fund) zero && le (Gszzl fund) maxFall then 1 else 0)).
Proof.
  unfold GenerateServerChanMessage_status, GenerateEmailHTML_status.
  destruct (gt (Gszzl fund) zero) eqn:Hpos; simpl.
  - assert (Hneg : lt (Gszzl fund) zero = false) by (by apply lt_asym).
    rewrite Hneg. simpl.
    destruct (ge (Gszzl fund) minRise); f_equal; lia.
  - destruct (lt (Gszzl fund) zero && le (Gszzl fund) maxFall); f_equal; lia.
Qed.

Lemma GenerateServerChanMessage_loop_rows FormatFloat funds minRise maxFall :
  GenerateServerChanMessage_loop FormatFloat funds minRise maxFall =
  (map (fun fund =>
          GenerateServerChanMessage_element FormatFloat fund
            (GenerateEmailHTML_status fund minRise maxFall)) funds,
   falls funds maxFall).
Proof.
  unfold GenerateServerChanMessage_loop, falls.
  enough (H : forall elements n,
    fold_left
      (fun '(elements, fallCount) fund =>
         let '(status, fallCount') :=
           GenerateServerChanMessage_status fund minRise maxFall fallCount in
         (elements ++ [GenerateServerChanMessage_element FormatFloat fund status],
          fallCount')) funds (elements, n) =
    (elements ++
       map (fun fund =>
              GenerateServerChanMessage_element FormatFloat fund
                (GenerateEmailHTML_status fund minRise maxFall)) funds,
     n + sum_list_with
           (fun fund =>
              if lt (Gszzl fund) zero && le (Gszzl fund) maxFall then 1 else 0)
           funds))
    by (by rewrite H).
  induction funds as [|fund funds IH]; intros elements n; simpl.
  - rewrite app_nil_r. f_equal. lia.
  - rewrite GenerateServerChanMessage_status_count, IH, <- app_assoc. simpl.
    f_equal. lia.
Qed.

Lemma GenerateServerChanMessage_value
    FormatFloat today funds minRise maxFall :
  GenerateServerChanMessage FormatFloat today funds minRise maxFall =
  match funds with
  | [] => ("", "", false)
  | _ :: _ =>
      ("基金涨跌监控_" +:+ today +:+ "_" +:+ pretty (falls funds maxFall) +:+ "跌",
       serverChan_body_open +:+
       Join (map (fun fund =>
                    GenerateServerChanMessage_element FormatFloat fund
                      (GenerateEmailHTML_status fund minRise maxFall))
               funds) nl,
       true)
  end.
Proof.
  unfold GenerateServerChanMessage.
  rewrite GenerateServerChanMessage_loop_rows. by destruct funds.
Qed.

(** X13: the title of the webhook message carries the number of records
    whose growth is below 0 and at most the maximum fall, whatever the
    minimum rise; the body holds one row for each record, in the order
    of the records, with the same status as in the email. *)
Theorem GenerateServerChanMessage_title FormatFloat today funds minRise maxFall :
  funds <> [] ->
  GenerateServerChanMessage FormatFloat today funds minRise maxFall =
  ("基金涨跌监控_" +:+ today +:+ "_" +:+ pretty (falls funds maxFall) +:+ "跌",
   serverChan_body_open +:+
   Join (map (fun fund =>
                GenerateServerChanMessage_element FormatFloat fund
                  (GenerateEmailHTML_status fund minRise maxFall))
           funds) nl,
   true).
Proof.
  intros Hne. rewrite GenerateServerChanMessage_value. by destruct funds.
Qed.

Lemma GenerateServerChanMessage_title_witness :
  fst (fst (GenerateServerChanMessage (fun _ => "0") "2019-11-01"
              [demo_fund; mkFund "c" "C" "" zero zero (lit (-0.9)) ""]
              minRiseNum maxFallNum)) =
  "基金涨跌监控_2019-11-01_1跌".
Proof.
  rewrite (GenerateServerChanMessage_title (fun _ => "0") "2019-11-01"
             [demo_fund; mkFund "c" "C" "" zero zero (lit (-0.9)) ""]
             minRiseNum maxFallNum); [|discriminate].
  vm_compute. reflexivity.
Defined.

(** ** The channels *)

Lemma slice_to_prefix n s : exists rest, s = slice_to n s +:+ rest.
Proof.
  revert s. induction n as [|n IH]; intros [|c s]; simpl; eauto.
  destruct (IH s) as [rest Hrest]. exists rest.
  change (String c s = String c (slice_to n s +:+ rest)). by f_equal.
Qed.

(** X14: every request that SendServerChan makes carries a title of 1
    to 256 bytes that is a prefix of the given title, and the given
    body. *)
Theorem SendServerChan_request_title title body key req :
  SendServerChan_request title body key = Ok req ->
  text req <> "" /\ len (text req) <= 256 /\
  (exists rest, title = text req +:+ rest) /\ desp req = body.
Proof.
  unfold SendServerChan_request.
  destruct (String.eqb_spec title "") as [Ht|Ht]; [done|].
  destruct (String.eqb_spec key "") as [Hk|Hk]; [done|].
  assert (Hcut :
    let t := if (256 <? len title)%nat then slice_to 256 title else title in
    t <> "" /\ len t <= 256 /\ exists rest, title = t +:+ rest).
  { cbv zeta. destruct (Nat.ltb_spec 256 (len title)) as [Hlong|Hshort].
    - split; [by destruct title|].
      split; [rewrite slice_to_length; lia|apply slice_to_prefix].
    - split; [done|]. split; [done|].
      exists "". clear. induction title as [|c t IH]; [done|].
      change (String c t = String c (t +:+ "")). by f_equal. }
  cbv zeta in Hcut.
  remember (if (256 <? len title)%nat then slice_to 256 title else title) as t.
  intros [= <-]. cbn [text desp]. tauto.
Qed.

Lemma SendServerChan_request_title_witness :
  exists req,
    SendServerChan_request (fallMarks 86) "body" "key" = Ok req /\
    len (text req) <= 256.
Proof.
  eexists. split; [reflexivity|].
  eapply (SendServerChan_request_title (fallMarks 86) "body" "key").
  reflexivity.
Defined.

Lemma SendServerChan_request_error title body key :
  (exists e, SendServerChan_request title body key = Error e) <->
  title = "" \/ key = "".
Proof.
  unfold SendServerChan_request.
  destruct (String.eqb_spec title "") as [Ht|Ht];
    [|destruct (String.eqb_spec key "") as [Hk|Hk]].
  - split; eauto.
  - split; eauto.
  - split; [by intros [e ?]|by intros [?|?]].
Qed.

Lemma SendServerChan_of_request network title body key req :
  SendServerChan_request title body key = Ok req ->
  (SendServerChan network title body key = None <->
   network req = ReplyStatus 200).
Proof.
  intros Hreq. unfold SendServerChan. rewrite Hreq.
  destruct (network req) as [e|e|code]; try done.
  destruct (Z.eqb_spec code 200) as [->|Hne]; [done|].
  split; [done|]. intros [= ?]. done.
Qed.

(** X15: SendServerChan returns nil exactly when the title and the key
    are not empty and the service answers with status 200; every other
    status, other 2xx included, is an error, and with an empty title or
    key no request is made. *)
Theorem SendServerChan_success network title body key :
  (SendServerChan network title body key = None <->
   exists req,
     SendServerChan_request title body key = Ok req /\
     network req = ReplyStatus 200) /\
  ((exists e, SendServerChan_request title body key = Error e) <->
   title = "" \/ key = "").
Proof.
  split; [|apply SendServerChan_request_error].
  destruct (SendServerChan_request title body key) as [req|e] eqn:Hreq.
  - rewrite (SendServerChan_of_request network _ _ _ _ Hreq). split.
    + intros H. by exists req.
    + by intros (req' & [= <-] & ?).
  - unfold SendServerChan. rewrite Hreq. split; [done|].
    by intros (req & ? & _).
Qed.

(** X16: SendEmail after GenerateEmailHTML.  Without records the
    content is empty and SendEmail returns nil without a dial.  With
    records a mail is dialled on port 587, with the page as its body
    and the sender as the SMTP user, and SendEmail returns nil exactly
    when the dial and send succeeds. *)
Theorem SendEmail_of_GenerateEmailHTML
    FormatFloat smtp now funds minRise maxFall host name password to :
  let content := fst (GenerateEmailHTML FormatFloat funds minRise maxFall) in
  match funds with
  | [] =>
      SendEmail_mail now content host name password to = None /\
      SendEmail smtp now content host name password to = None
  | _ :: _ =>
      exists m,
        SendEmail_mail now content host name password to = Some m /\
        mailBody m = content /\ dialPort m = 587%Z /\
        dialHost m = host /\ dialUsername m = name /\ mailFrom m = name /\
        mailTo m = to /\
        (SendEmail smtp now content host name password to = None <->
         smtp m = None)
  end.
Proof.
  cbv zeta. rewrite GenerateEmailHTML_value.
  destruct funds as [|fund funds]; [done|].
  destruct html_open_nonempty as (c & rest & Hopen).
  unfold SendEmail, SendEmail_mail. rewrite Hopen. simpl.
  eexists. split; [reflexivity|]. simpl. repeat split; try done.
  - by destruct (smtp _).
  - by intros ->.
Qed.

(** ** main: which channels are used *)

Lemma emailAttempt_none FormatFloat now smtp cfg fundResult :
  emailAttempt FormatFloat now smtp cfg fundResult = None <->
  fundResult = [] \/ smtpHost cfg = "" \/ emailName cfg = "" \/
  emailPassword cfg = "" \/ emailTo cfg = "".
Proof.
  unfold emailAttempt. rewrite GenerateEmailHTML_value.
  destruct (String.eqb_spec (smtpHost cfg) ""),
           (String.eqb_spec (emailName cfg) ""),
           (String.eqb_spec (emailPassword cfg) ""),
           (String.eqb_spec (emailTo cfg) "");
    destruct fundResult; simpl; split; intros H; try done;
    intuition (try done; try discriminate).
Qed.

Lemma serverChanAttempt_none FormatFloat today network cfg fundResult :
  serverChanAttempt FormatFloat today network cfg fundResult = None <->
  fundResult = [] \/ serverChanKey cfg = "".
Proof.
  unfold serverChanAttempt. rewrite GenerateServerChanMessage_value.
  destruct (String.eqb_spec (serverChanKey cfg) "");
    destruct fundResult; simpl; split; intros H; try done;
    intuition (try done; try discriminate).
Qed.

(** X17: the first task of main calls SendEmail exactly when there is a
    record and the host, the sender, the password and the recipient are
    not empty; the second task calls SendServerChan exactly when there
    is a record and the key is not empty. *)
Theorem main_attempts FormatFloat today now smtp network cfg fundResult :
  (emailAttempt FormatFloat now smtp cfg fundResult = None <->
   fundResult = [] \/ smtpHost cfg = "" \/ emailName cfg = "" \/
   emailPassword cfg = "" \/ emailTo cfg = "") /\
  (serverChanAttempt FormatFloat today network cfg fundResult = None <->
   fundResult = [] \/ serverChanKey cfg = "").
Proof. split; [apply emailAttempt_none | apply serverChanAttempt_none]. Qed.

(** X18: with the configuration that main reads, the recipient falls
    back on the sender, so the test of the recipient never decides: the
    email channel is used exactly when there is a record and
    [SMTP_HOST], [EMAIL_NAME] and [EMAIL_PASSWORD] are set. *)
Theorem main_email_configured FormatFloat now smtp getenv fundResult :
  emailAttempt FormatFloat now smtp (readConfig getenv) fundResult = None <->
  fundResult = [] \/ getenv "SMTP_HOST" = "" \/ getenv "EMAIL_NAME" = "" \/
  getenv "EMAIL_PASSWORD" = "".
Proof.
  rewrite emailAttempt_none. unfold readConfig. simpl.
  destruct (String.eqb_spec (getenv "EMAIL_TO") ""); tauto.
Qed.

(** ** main: the two tasks and the variable [err] *)

Section NotifyFacts.

Variable FormatFloat : float64 -> string.
Variable today : string.
Variable now : string.
Variable smtp : Mail -> option Err.
Variable network : ServerChanRequest -> ServerChanReply.
Variable cfg : Config.
Variable fundResult : list Fund.

#[local] Abbreviation email :=
  (emailAttempt FormatFloat now smtp cfg fundResult).
#[local] Abbreviation serverChan :=
  (serverChanAttempt FormatFloat today network cfg fundResult).
#[local] Abbreviation stepN :=
  (stepNotify FormatFloat today now smtp network cfg fundResult).
#[local] Abbreviation runN :=
  (runNotify FormatFloat today now smtp network cfg fundResult).

Lemma runNotify_invariant (P : NotifyState -> Prop) :
  (forall s t s', P s -> stepN s t = Some s' -> P s') ->
  forall schedule s s', P s -> runN s schedule = Some s' -> P s'.
Proof.
  intros Hstep schedule.
  induction schedule as [|t rest IH]; intros s s' Hs Hrun; simpl in Hrun.
  - by injection Hrun as <-.
  - destruct (stepN s t) as [s1|] eqn:Ht; [|done]. eauto.
Qed.

Lemma quiet_step s t s' :
  (forall e, email <> Some (Some e)) ->
  (forall e, serverChan <> Some (Some e)) ->
  mainErr s = None /\ groupErr s = None /\
    task_quiet (emailTask s) /\ task_quiet (serverChanTask s) ->
  stepN s t = Some s' ->
  mainErr s' = None /\ groupErr s' = None /\
    task_quiet (emailTask s') /\ task_quiet (serverChanTask s').
Proof.
  intros He Hs (Herr & Hg & Hq1 & Hq2) Hstep.
  unfold task_quiet in *.
  destruct s as [err pc1 pc2 group]. simpl in *. subst err group.
  destruct t; simpl in Hstep; unfold stepTask in Hstep.
  - destruct Hq1 as [-> | [-> | ->]]; [| |done].
    + destruct email as [[e|]|] eqn:Ha; [by destruct (He e)| |];
        simplify_eq; simpl; auto 10.
    + simplify_eq. simpl. auto 10.
  - destruct Hq2 as [-> | [-> | ->]]; [| |done].
    + destruct serverChan as [[e|]|] eqn:Ha; [by destruct (Hs e)| |];
        simplify_eq; simpl; auto 10.
    + simplify_eq. simpl. auto 10.
Qed.

(** X19: when no send fails, main does not fail in the notification
    phase: whatever the order of the operations of the two tasks, the
    group gets no error. *)
Theorem notify_no_failure schedule s :
  (forall e, email <> Some (Some e)) ->
  (forall e, serverChan <> Some (Some e)) ->
  runN notifyInit schedule = Some s ->
  groupErr s = None.
Proof.
  intros He Hs Hrun.
  enough (H : mainErr s = None /\ groupErr s = None /\
              task_quiet (emailTask s) /\ task_quiet (serverChanTask s))
    by tauto.
  revert Hrun.
  apply (runNotify_invariant (fun s =>
    mainErr s = None /\ groupErr s = None /\
    task_quiet (emailTask s) /\ task_quiet (serverChanTask s))).
  - intros s1 t s2 Hinv Hstep. by apply (quiet_step s1 t s2).
  - unfold task_quiet. simpl. auto.
Qed.

(** X20: the two tasks assign and read the same variable [err].  When
    the email fails and the webhook succeeds, there is an order of the
    operations in which the nil result of the webhook overwrites the
    error of the email before the first task tests it: both tasks
    return nil and the group gets no error. *)
Theorem notify_error_lost e :
  email = Some (Some e) ->
  serverChan = Some None ->
  exists s,
    runN notifyInit race_schedule = Some s /\
    emailTask s = TaskReturned None /\
    serverChanTask s = TaskReturned None /\
    groupErr s = None.
Proof.
  intros He Hs. eexists. split.
  - unfold race_schedule, notifyInit. simpl. unfold stepNotify. simpl.
    rewrite He. simpl. rewrite Hs. simpl. reflexivity.
  - by repeat split.
Qed.

Lemma loud_step s t s' :
  email <> Some None -> serverChan <> Some None ->
  (mainErr s = None -> emailTask s <> TaskFailed /\ serverChanTask s <> TaskFailed) /\
  task_loud email (emailTask s) (mainErr s) (groupErr s) /\
  task_loud serverChan (serverChanTask s) (mainErr s) (groupErr s) ->
  stepN s t = Some s' ->
  (mainErr s' = None -> emailTask s' <> TaskFailed /\ serverChanTask s' <> TaskFailed) /\
  task_loud email (emailTask s') (mainErr s') (groupErr s') /\
  task_loud serverChan (serverChanTask s') (mainErr s') (groupErr s').
Proof.
  intros He Hs (Hnf & Hl1 & Hl2) Hstep.
  destruct s as [err pc1 pc2 group]. simpl in *.
  destruct t; simpl in Hstep; unfold stepTask in Hstep;
    destruct email as [[e1|]|] eqn:Ha1; try done;
    destruct serverChan as [[e2|]|] eqn:Ha2; try done;
    destruct pc1 as [| | |[r1|]], pc2 as [| | |[r2|]], err as [e'|],
             group as [g|];
    simplify_eq; simpl in *; intuition (try done; try congruence).
Qed.

(** X21: when every send that is made fails and at least one is made,
    main fails: whatever the order of the operations, the group has an
    error once both tasks have returned. *)
Theorem notify_all_fail schedule s :
  email <> Some None -> serverChan <> Some None ->
  email <> None \/ serverChan <> None ->
  runN notifyInit schedule = Some s ->
  notifyDone s ->
  groupErr s <> None.
Proof.
  intros He Hs Hsome Hrun [[r1 Hr1] [r2 Hr2]].
  assert (Hinv :
    (mainErr s = None -> emailTask s <> TaskFailed /\ serverChanTask s <> TaskFailed) /\
    task_loud email (emailTask s) (mainErr s) (groupErr s) /\
    task_loud serverChan (serverChanTask s) (mainErr s) (groupErr s)).
  { revert Hrun.
    apply (runNotify_invariant (fun s =>
      (mainErr s = None ->
       emailTask s <> TaskFailed /\ serverChanTask s <> TaskFailed) /\
      task_loud email (emailTask s) (mainErr s) (groupErr s) /\
      task_loud serverChan (serverChanTask s) (mainErr s) (groupErr s))).
    - intros s1 t s2 Hinv Hstep. by apply (loud_step s1 t s2).
    - simpl. auto. }
  destruct Hinv as (_ & Hl1 & Hl2). rewrite Hr1 in Hl1. rewrite Hr2 in Hl2.
  simpl in *. destruct r1, r2; try done. tauto.
Qed.

End NotifyFacts.

Lemma notify_no_failure_witness :
  exists s,
    runNotify (fun _ => "0") "2019-11-01" "2019-11-01T15:00:00+08:00"
      (fun _ => None) race_network race_config [demo_fund]
      notifyInit race_schedule = Some s /\
    groupErr s = None.
Proof.
  eexists. split; [vm_compute; reflexivity|].
  apply (notify_no_failure (fun _ => "0") "2019-11-01"
           "2019-11-01T15:00:00+08:00" (fun _ => None) race_network
           race_config [demo_fund] race_schedule);
    [intros e; vm_compute; discriminate | intros e; vm_compute; discriminate
    | vm_compute; reflexivity].
Defined.

Lemma notify_error_lost_witness :
  exists s,
    runNotify (fun _ => "0") "2019-11-01" "2019-11-01T15:00:00+08:00"
      race_smtp race_network race_config [demo_fund]
      notifyInit race_schedule = Some s /\
    groupErr s = None.
Proof.
  edestruct (notify_error_lost (fun _ => "0") "2019-11-01"
               "2019-11-01T15:00:00+08:00" race_smtp race_network
               race_config [demo_fund]) as (s & Hrun & _ & _ & Hg);
    [vm_compute; reflexivity | vm_compute; reflexivity |].
  by exists s.
Defined.

Lemma notify_all_fail_witness :
  exists s,
    runNotify (fun _ => "0") "2019-11-01" "2019-11-01T15:00:00+08:00"
      race_smtp (fun _ => ReplyStatus 500) race_config [demo_fund]
      notifyInit [EmailTask; ServerChanTask; EmailTask; ServerChanTask;
                  EmailTask; ServerChanTask] = Some s /\
    groupErr s <> None.
Proof.
  eexists. split; [vm_compute; reflexivity|].
  apply (notify_all_fail (fun _ => "0") "2019-11-01"
           "2019-11-01T15:00:00+08:00" race_smtp (fun _ => ReplyStatus 500)
           race_config [demo_fund]
           [EmailTask; ServerChanTask; EmailTask; ServerChanTask;
            EmailTask; ServerChanTask]);
    [vm_compute; discriminate | vm_compute; discriminate
    | left; vm_compute; discriminate | vm_compute; reflexivity
    | split; eexists; reflexivity].
Defined.

